(** * Dungeon Pathfinder: the BFS solvers of [src/solver.cpp]

    A shallow embedding of the two breadth-first engines ([bfsPath] and
    [bfsPathKeys]) and of their helpers, followed by the properties of the
    design document that can be settled on them.

    Conventions.
    - C++ [int] values (rows, columns, key masks) are [Z].  Coordinates stay
      within one step of the grid and key masks within six bits, so no
      operation of the solver wraps around.
    - C++ [char] is [ascii]; comparisons go through the character code.  All
      ranges the solver tests (['A'..'F'], ['a'..'f']) lie below 128, so the
      signedness of [char] does not matter.
    - [vector<string>] is [list string]; [queue<T>] is a [list T] served from
      the head; [unordered_set] is [gset]; [unordered_map] is [gmap].
    - [while] loops take a [nat] of fuel and return [None] when it runs out;
      the fuel the entry points pass is shown to be enough. *)

From stdpp Require Import gmap strings list fin_maps fin_sets.
From Stdlib Require Import ZArith Ascii Lia.

Local Open Scope Z_scope.
#[local] Set Warnings "-clear-no-such-hyp".

(** ** Characters *)

(** The code of a character, the [int] it is promoted to in a comparison. *)
Definition code (ch : ascii) : Z := Z.of_nat (nat_of_ascii ch).

(** ** cell.h *)

(** Modelled from the spec: [cell.h], which declares [Cell], [CellHash],
    [DIRECTIONS] and [NUM_DIRECTIONS], is not part of the sources.  The solver
    builds a cell with [Cell(row, col)], reads its fields [r] and [c] and
    compares cells with [==]; the design describes a coordinate as a (row,
    column) pair with equality and a hash. *)
Record Cell : Type := mkCell { r : Z; c : Z }.

Global Instance Cell_eq_dec : EqDecision Cell.
Proof. solve_decision. Defined.

Global Instance Cell_countable : Countable Cell :=
  inj_countable' (fun x => (r x, c x)) (fun p => mkCell p.1 p.2)
                 (fun x => match x with mkCell _ _ => eq_refl end).

(** Modelled from the spec: the design fixes four movement offsets
    "up/down/left/right", in a fixed order; the solver adds [DIRECTIONS[i][0]]
    to the row and [DIRECTIONS[i][1]] to the column. *)
Definition DIRECTIONS : list (Z * Z) := [(-1, 0); (1, 0); (0, -1); (0, 1)].
Definition NUM_DIRECTIONS : nat := 4.

(** ** The grid *)

Abbreviation Dungeon := (list string).

(** [dungeon.size()] and [dungeon[0].size()], as [int]s. *)
Definition rows (dungeon : Dungeon) : Z := Z.of_nat (List.length dungeon).
Definition cols (dungeon : Dungeon) : Z :=
  match dungeon with
  | [] => 0
  | row0 :: _ => Z.of_nat (String.length row0)
  end.

(** The symbol stored at [(row, col)], when the row exists and is long
    enough. *)
Definition symbolAt (dungeon : Dungeon) (row col : Z) : option ascii :=
  if (row <? 0) || (col <? 0) then None
  else match dungeon !! Z.to_nat row with
       | Some line => String.get (Z.to_nat col) line
       | None => None
       end.

(** [dungeon[row][col]].  The solver only indexes after its bounds check, which
    uses the width of row 0; on a jagged grid the C++ read can fall outside the
    row, which we render as the NUL character. *)
Definition at_ (dungeon : Dungeon) (row col : Z) : ascii :=
  match symbolAt dungeon row col with
  | Some ch => ch
  | None => zero
  end.

(** ** findPosition *)

Fixpoint findInRow (line : string) (target : ascii) (col : Z) : option Z :=
  match line with
  | EmptyString => None
  | String ch rest =>
      if Ascii.eqb ch target then Some col
      else findInRow rest target (col + 1)
  end.

Fixpoint findFrom (dungeon : Dungeon) (target : ascii) (row : Z) : Cell :=
  match dungeon with
  | [] => mkCell (-1) (-1)
  | line :: rest =>
      match findInRow line target 0 with
      | Some col => mkCell row col
      | None => findFrom rest target (row + 1)
      end
  end.

Definition findPosition (dungeon : Dungeon) (target : ascii) : Cell :=
  findFrom dungeon target 0.

(** ** Traversability rules *)

(** The bounds test [isPassable] and [isValidPosition] start with, negated:
    the cell lies within the grid, the width being that of row 0. *)
Definition inBounds (dungeon : Dungeon) (row col : Z) : bool :=
  negb ((row <? 0) || (row >=? rows dungeon) || (col <? 0) || (col >=? cols dungeon)).

Definition isPassable (dungeon : Dungeon) (row col : Z) : bool :=
  if (row <? 0) || (row >=? rows dungeon) || (col <? 0) || (col >=? cols dungeon)
  then false
  else
    let cell := at_ dungeon row col in
    if Ascii.eqb cell "#"%char then false
    else if (code cell >=? code "A"%char) && (code cell <=? code "F"%char)
            && negb (Ascii.eqb cell "E"%char) then false
    else true.

Definition canPassDoor (door : ascii) (keyMask : Z) : bool :=
  if (code door <? code "A"%char) || (code door >? code "F"%char) then true
  else
    let requiredKey := code door - code "A"%char + code "a"%char in
    let keyBit := requiredKey - code "a"%char in
    negb (Z.land (Z.shiftr keyMask keyBit) 1 =? 0).

Definition collectKey (key : ascii) (keyMask : Z) : Z :=
  if (code key <? code "a"%char) || (code key >? code "f"%char) then keyMask
  else
    let keyBit := code key - code "a"%char in
    Z.lor keyMask (Z.shiftl 1 keyBit).

Definition isValidPosition (dungeon : Dungeon) (row col : Z) : bool :=
  if (row <? 0) || (row >=? rows dungeon) || (col <? 0) || (col >=? cols dungeon)
  then false
  else negb (Ascii.eqb (at_ dungeon row col) "#"%char).

(** ** reconstructPath *)

(** The backward walk of [reconstructPath]: [path] is the vector under
    construction, [push_back] appends at its end. *)
Fixpoint reconstructLoop (fuel : nat) (parents : gmap Cell Cell)
         (start current : Cell) (path : list Cell) : option (list Cell) :=
  match fuel with
  | O => None
  | S fuel' =>
      if negb ((r current =? r start) && (c current =? c start)) then
        match parents !! current with
        | None => Some []
        | Some parent =>
            reconstructLoop fuel' parents start parent (path ++ [current])
        end
      else Some (rev (path ++ [start]))
  end.

Definition reconstructPath (fuel : nat) (parents : gmap Cell Cell)
           (start goal : Cell) : option (list Cell) :=
  reconstructLoop fuel parents start goal [].

(** ** getNeighbors *)

(** The offsets [DIRECTIONS[i]] for [i < NUM_DIRECTIONS], in order. *)
Definition directions : list (Z * Z) := take NUM_DIRECTIONS DIRECTIONS.

Definition getNeighbors (dungeon : Dungeon) (current : Cell) : list Cell :=
  flat_map (fun d =>
              let newRow := r current + d.1 in
              let newCol := c current + d.2 in
              if isPassable dungeon newRow newCol then [mkCell newRow newCol] else [])
           directions.

(** ** bfsPath *)

(** The three containers the search loop updates. *)
Record BfsState : Type := mkBfs {
  bfsQueue : list Cell;
  visited : gset Cell;
  parents : gmap Cell Cell
}.

(** The body of the [for (auto neighbor : ...)] loop of [bfsPath]. *)
Definition visitNeighbor (dungeon : Dungeon) (current : Cell)
           (st : BfsState) (neighbor : Cell) : BfsState :=
  if isPassable dungeon (r neighbor) (c neighbor) && bool_decide (neighbor ∉ visited st)
  then mkBfs (bfsQueue st ++ [neighbor])
             ({[neighbor]} ∪ visited st)
             (<[neighbor := current]> (parents st))
  else st.

(** The [while (!bfsQueue.empty())] loop.  The backward walk follows one
    parent link per step and no cell twice, so one more step than there are
    links is enough for it. *)
Fixpoint bfsLoop (fuel : nat) (dungeon : Dungeon) (start exit : Cell)
         (st : BfsState) : option (list Cell) :=
  match fuel with
  | O => None
  | S fuel' =>
      match bfsQueue st with
      | [] => Some []
      | current :: rest =>
          if decide (current = exit)
          then reconstructPath (S (size (parents st))) (parents st) start current
          else
            bfsLoop fuel' dungeon start exit
                    (foldl (visitNeighbor dungeon current)
                           (mkBfs rest (visited st) (parents st))
                           (getNeighbors dungeon current))
      end
  end.

(** The number of cells within bounds. *)
Definition cellCount (dungeon : Dungeon) : nat :=
  List.length dungeon * Z.to_nat (cols dungeon).

(** Every cell is enqueued at most once, so the loop tests its queue at most
    once for the start, once per cell within bounds and once at the end;
    twice the cells and two is ample. *)
Definition bfsFuel (dungeon : Dungeon) : nat := 2 * cellCount dungeon + 2.

(** [None] stands for a search that does not return; [Some []] is the empty
    vector.  The progress messages written to [cout] are not modelled. *)
Definition bfsPath (dungeon : Dungeon) : option (list Cell) :=
  let start := findPosition dungeon "S"%char in
  let exit := findPosition dungeon "E"%char in
  if (r start =? -1) || (r exit =? -1) then Some []
  else bfsLoop (bfsFuel dungeon) dungeon start exit
               (mkBfs [start] {[start]} ∅).

(** ** KeyState *)

Record KeyState : Type := mkKeyState { row : Z; col : Z; keyMask : Z }.

Global Instance KeyState_eq_dec : EqDecision KeyState.
Proof. solve_decision. Defined.

Global Instance KeyState_countable : Countable KeyState :=
  inj_countable' (fun x => (row x, col x, keyMask x))
                 (fun p => mkKeyState p.1.1 p.1.2 p.2)
                 (fun x => match x with mkKeyState _ _ _ => eq_refl end).

(** ** KeyStateHash *)

(** [static_cast<size_t>(x)] for an [int] [x], with a [size_t] of 64 bits. *)
Definition toSizeT (x : Z) : Z := x mod 2 ^ 64.

(** [x << n] on [size_t]. *)
Definition shlSizeT (x n : Z) : Z := Z.shiftl x n mod 2 ^ 64.

Definition KeyStateHash (state : KeyState) : Z :=
  Z.lor (Z.lor (shlSizeT (toSizeT (keyMask state)) 16)
               (shlSizeT (toSizeT (row state)) 8))
        (toSizeT (col state)).

(** ** keyMaskToString *)

(** One turn of the [for] loop of [keyMaskToString]: [acc] is the pair of
    [result] and [hasAny]. *)
Definition keyMaskStep (keyMask : Z) (acc : string * bool) (i : Z)
  : string * bool :=
  if negb (Z.land (Z.shiftr keyMask i) 1 =? 0)
  then (acc.1 +:+ String (ascii_of_nat (Z.to_nat (code "a"%char + i))) ""
              +:+ " ", true)
  else acc.

Definition keyMaskToString (keyMask : Z) : string :=
  let acc := foldl (keyMaskStep keyMask) ("Keys: "%string, false)
                   [0; 1; 2; 3; 4; 5] in
  if negb acc.2 then acc.1 +:+ "none" else acc.1.

(** ** reconstructKeyPath *)

Fixpoint reconstructKeyLoop (fuel : nat) (parents : gmap KeyState KeyState)
         (start current : KeyState) (path : list Cell) : option (list Cell) :=
  match fuel with
  | O => None
  | S fuel' =>
      if negb ((row current =? row start) && (col current =? col start)
               && (keyMask current =? keyMask start)) then
        match parents !! current with
        | None => Some []
        | Some parent =>
            reconstructKeyLoop fuel' parents start parent
                               (path ++ [mkCell (row current) (col current)])
        end
      else Some (rev (path ++ [mkCell (row start) (col start)]))
  end.

Definition reconstructKeyPath (fuel : nat) (parents : gmap KeyState KeyState)
           (start goal : KeyState) : option (list Cell) :=
  reconstructKeyLoop fuel parents start goal [].

(** ** bfsPathKeys *)

Record KeyBfsState : Type := mkKeyBfs {
  keyQueue : list KeyState;
  keyVisited : gset KeyState;
  keyParents : gmap KeyState KeyState
}.

(** The goal test of the search loop.  The source compares with the literals
    [5] and [8]; the located [exit.r] and [exit.c] are commented out next to
    them, so the test does not depend on [exit]. *)
Definition goalTest (exit : Cell) (current : KeyState) : bool :=
  (row current =? 5) && (col current =? 8).

(** The edge check on doors: [true] when the loop [continue]s because the
    neighbour is a door the current keys do not open. *)
Definition doorBlocks (cellChar : ascii) (keyMask : Z) : bool :=
  if (code cellChar >=? code "A"%char) && (code cellChar <=? code "F"%char)
     && negb (Ascii.eqb cellChar "S"%char) && negb (Ascii.eqb cellChar "E"%char)
  then negb (canPassDoor cellChar keyMask)
  else false.

(** The key mask after stepping on [cellChar]. *)
Definition pickUp (cellChar : ascii) (keyMask : Z) : Z :=
  let newKeyMask := keyMask in
  if (code cellChar >=? code "a"%char) && (code cellChar <=? code "f"%char)
  then collectKey cellChar newKeyMask
  else newKeyMask.

(** The state the loop body builds for direction [d], or [None] where it
    [continue]s. *)
Definition nextState (dungeon : Dungeon) (current : KeyState) (d : Z * Z)
  : option KeyState :=
  let newRow := row current + d.1 in
  let newCol := col current + d.2 in
  if negb (isValidPosition dungeon newRow newCol) then None
  else
    let cellChar := at_ dungeon newRow newCol in
    if doorBlocks cellChar (keyMask current) then None
    else Some (mkKeyState newRow newCol (pickUp cellChar (keyMask current))).

(** One turn of the [for] loop over the directions. *)
Definition visitDirection (dungeon : Dungeon) (current : KeyState)
           (st : KeyBfsState) (d : Z * Z) : KeyBfsState :=
  match nextState dungeon current d with
  | None => st
  | Some newState =>
      if bool_decide (newState ∉ keyVisited st)
      then mkKeyBfs (keyQueue st ++ [newState])
                    ({[newState]} ∪ keyVisited st)
                    (<[newState := current]> (keyParents st))
      else st
  end.

Fixpoint keyLoop (fuel : nat) (dungeon : Dungeon) (startState : KeyState)
         (exit : Cell) (st : KeyBfsState) : option (list Cell) :=
  match fuel with
  | O => None
  | S fuel' =>
      match keyQueue st with
      | [] => Some []
      | current :: rest =>
          if goalTest exit current
          then reconstructKeyPath (S (size (keyParents st))) (keyParents st)
                                  startState current
          else
            keyLoop fuel' dungeon startState exit
                    (foldl (visitDirection dungeon current)
                           (mkKeyBfs rest (keyVisited st) (keyParents st))
                           directions)
      end
  end.

(** The same with states for cells: a state is a cell with one of the 64
    key sets. *)
Definition keyFuel (dungeon : Dungeon) : nat := 2 * (64 * cellCount dungeon) + 2.

Definition bfsPathKeys (dungeon : Dungeon) : option (list Cell) :=
  let start := findPosition dungeon "S"%char in
  let exit := findPosition dungeon "E"%char in
  if (r start =? -1) || (r exit =? -1) then Some []
  else
    let startState := mkKeyState (r start) (c start) 0 in
    keyLoop (keyFuel dungeon) dungeon startState exit
            (mkKeyBfs [startState] {[startState]} ∅).

(** * Vocabulary of the properties *)

(** ** Symbols and key sets *)

(** Door letters ['A'..'F'] and key letters ['a'..'f']. *)
Definition isDoorLetter (ch : ascii) : Prop := code "A"%char <= code ch <= code "F"%char.
Definition isKeyLetter (ch : ascii) : Prop := code "a"%char <= code ch <= code "f"%char.

(** Bit [i] of a key set stands for the key ['a' + i]. *)
Definition keyBitOf (key : ascii) : Z := code key - code "a"%char.

(** The key (lowercase) letter that opens [door]. *)
Definition matchingKey (door : ascii) : ascii :=
  ascii_of_nat (nat_of_ascii door + 32).

Definition hasKey (keySet : Z) (key : ascii) : Prop :=
  Z.testbit keySet (keyBitOf key) = true.

(** The letter of bit [i]. *)
Definition keyLetter (i : Z) : ascii := ascii_of_nat (Z.to_nat (code "a"%char + i)).

(** The grid holds no door: none of its symbols is a letter of ['A'..'F']
    other than the exit letter. *)
Definition doorFree (dungeon : Dungeon) : bool :=
  forallb (fun line =>
             forallb (fun ch => negb ((code ch >=? code "A"%char)
                                      && (code ch <=? code "F"%char)
                                      && negb (Ascii.eqb ch "E"%char)))
                     (String.list_ascii_of_string line))
          dungeon.

(** The grid holds no [ch]. *)
Definition missing (dungeon : Dungeon) (ch : ascii) : Prop :=
  forall row col, symbolAt dungeon row col <> Some ch.

(** ** Steps, routes and walks *)

(** [b] is one step up, down, left or right of [a]. *)
Definition adjacent4 (a b : Cell) : Prop :=
  (r b = r a - 1 /\ c b = c a) \/ (r b = r a + 1 /\ c b = c a)
  \/ (r b = r a /\ c b = c a - 1) \/ (r b = r a /\ c b = c a + 1).

(** [linked R l]: every two consecutive elements of [l] are related by [R]. *)
Definition linked {K : Type} (R : K -> K -> Prop) (l : list K) : Prop :=
  forall (i : nat) a b, l !! i = Some a -> l !! S i = Some b -> R a b.

(** [v] is a neighbour the plain search visits from [p]. *)
Definition step (dungeon : Dungeon) (p v : Cell) : Prop :=
  v ∈ getNeighbors dungeon p.

(** A route from [start] to [goal]: consecutive cells are neighbours the plain
    search may step to. *)
Definition plainRoute (dungeon : Dungeon) (start goal : Cell) (path : list Cell)
  : Prop :=
  head path = Some start /\ last path = Some goal /\ linked (step dungeon) path.

(** [s'] is a state the loop body of the key-aware search builds from the
    dequeued state [s]. *)
Definition kstep (dungeon : Dungeon) (s s' : KeyState) : Prop :=
  exists d, d ∈ directions /\ nextState dungeon s d = Some s'.

(** [walk dungeon s0 trace s]: the search can go from [s0] to [s] through the
    states of [trace], the last of which is [s]. *)
Inductive walk (dungeon : Dungeon) (s0 : KeyState)
  : list KeyState -> KeyState -> Prop :=
| walk_here : walk dungeon s0 [] s0
| walk_step trace s s' :
    walk dungeon s0 trace s -> kstep dungeon s s' ->
    walk dungeon s0 (trace ++ [s']) s'.

(** The cell a state stands on. *)
Definition cellOf (s : KeyState) : Cell := mkCell (row s) (col s).

(** [path] is the projection of a list of states the search walks through
    from [start]; the last one stands on the literal goal cell. *)
Definition keyRoute (dungeon : Dungeon) (start : KeyState) (path : list Cell)
  : Prop :=
  exists states goal,
    path = cellOf <$> states
    /\ head states = Some start /\ last states = Some goal
    /\ linked (kstep dungeon) states
    /\ row goal = 5 /\ col goal = 8.

(** The states the key-aware search goes through along the cells of a plain
    route, starting with the keys [keySet]. *)
Fixpoint liftFrom (dungeon : Dungeon) (keySet : Z) (cells : list Cell)
  : list KeyState :=
  match cells with
  | [] => []
  | v :: rest =>
      let keySet' := pickUp (at_ dungeon (r v) (c v)) keySet in
      mkKeyState (r v) (c v) keySet' :: liftFrom dungeon keySet' rest
  end.

(** ** Parent chains *)

(** [chain parents start v l]: following the parent links from [v] leads to
    [start], and [l] lists the states met, from [start] to [v]. *)
Inductive chain `{Countable K} (parents : gmap K K) (start : K)
  : K -> list K -> Prop :=
| chain_start : chain parents start start [start]
| chain_link v p l :
    v <> start -> parents !! v = Some p -> chain parents start p l ->
    chain parents start v (l ++ [v]).

(** ** Invariants of the plain search *)

(** The cells within bounds, row by row. *)
Definition allCells (dungeon : Dungeon) : list Cell :=
  i ← seq 0 (length dungeon);
  (fun j => mkCell (Z.of_nat i) (Z.of_nat j)) <$> seq 0 (Z.to_nat (cols dungeon)).

(** What holds of the queue, the visited set and the parent map whenever the
    loop tests its queue, and between two neighbours. *)
Record bfsInv (dungeon : Dungeon) (start : Cell) (st : BfsState) : Prop := {
  inv_start : start ∈ visited st;
  inv_queue : forall q, q ∈ bfsQueue st -> q ∈ visited st;
  inv_bounds : forall v, v ∈ visited st ->
                         v = start \/ inBounds dungeon (r v) (c v) = true;
  inv_dom : forall v, v ∉ visited st -> parents st !! v = None;
  inv_chain : forall v, v ∈ visited st ->
                        exists l, chain (parents st) start v l
                                  /\ (length l <= S (size (parents st)))%nat;
  inv_edge : forall v p, parents st !! v = Some p -> step dungeon p v
}.

(** What is left to do: twice the cells not yet visited, plus the queue. *)
Definition bfsMeasure (dungeon : Dungeon) (st : BfsState) : nat :=
  2 * (S (cellCount dungeon) - size (visited st)) + length (bfsQueue st).

(** The level invariant.  [dist] gives every visited cell its level, the
    number of parent links between it and the start; [D] is the level being
    served; [busy] holds the dequeued cell while its neighbours are visited. *)
Record lvlInv (dungeon : Dungeon) (start exit : Cell) (dist : Cell -> nat)
       (D : nat) (busy : gset Cell) (st : BfsState) : Prop := {
  lvl_start : dist start = O;
  lvl_parent : forall v p, parents st !! v = Some p ->
                           p ∈ visited st /\ dist v = S (dist p);
  lvl_sorted : forall (i j : nat) qi qj,
      (i <= j)%nat -> bfsQueue st !! i = Some qi -> bfsQueue st !! j = Some qj ->
      (dist qi <= dist qj)%nat;
  lvl_lo : forall q, q ∈ bfsQueue st -> (D <= dist q)%nat;
  lvl_hi : forall v, v ∈ visited st -> (dist v <= S D)%nat;
  lvl_done : forall v,
      v ∈ visited st -> v ∉ bfsQueue st -> v ∉ busy ->
      (dist v <= D)%nat /\ v <> exit
      /\ forall w, w ∈ getNeighbors dungeon v ->
                   w ∈ visited st /\ (dist w <= S (dist v))%nat;
  lvl_busy : forall v, v ∈ busy -> v ∈ visited st /\ dist v = D /\ v <> exit
}.

(** ** Invariant of the key-aware search *)

(** The states within bounds: a cell and one of the 64 key sets. *)
Definition allStates (dungeon : Dungeon) : list KeyState :=
  v ← allCells dungeon;
  (fun k => mkKeyState (r v) (c v) (Z.of_nat k)) <$> seq 0 64.

Definition stateInRange (dungeon : Dungeon) (s : KeyState) : Prop :=
  inBounds dungeon (row s) (col s) = true /\ 0 <= keyMask s < 64.

Record keyInv (dungeon : Dungeon) (start : KeyState) (st : KeyBfsState) : Prop := {
  kinv_start : start ∈ keyVisited st;
  kinv_queue : forall q, q ∈ keyQueue st -> q ∈ keyVisited st;
  kinv_bounds : forall v, v ∈ keyVisited st -> v = start \/ stateInRange dungeon v;
  kinv_mask : forall v, v ∈ keyVisited st -> 0 <= keyMask v < 64;
  kinv_dom : forall v, v ∉ keyVisited st -> keyParents st !! v = None;
  kinv_chain : forall v, v ∈ keyVisited st ->
                         exists l, chain (keyParents st) start v l
                                   /\ (length l <= S (size (keyParents st)))%nat;
  kinv_edge : forall v p, keyParents st !! v = Some p -> kstep dungeon p v
}.

Definition keyMeasure (dungeon : Dungeon) (st : KeyBfsState) : nat :=
  2 * (S (64 * cellCount dungeon) - size (keyVisited st)) + length (keyQueue st).

(** The level invariant of the key-aware loop, as [lvlInv] for the plain one;
    a served state is one the goal test rejected. *)
Record klvlInv (dungeon : Dungeon) (start : KeyState) (exit : Cell)
       (dist : KeyState -> nat) (D : nat) (busy : gset KeyState)
       (st : KeyBfsState) : Prop := {
  klvl_start : dist start = O;
  klvl_parent : forall v p, keyParents st !! v = Some p ->
                            p ∈ keyVisited st /\ dist v = S (dist p);
  klvl_sorted : forall (i j : nat) qi qj,
      (i <= j)%nat -> keyQueue st !! i = Some qi -> keyQueue st !! j = Some qj ->
      (dist qi <= dist qj)%nat;
  klvl_lo : forall q, q ∈ keyQueue st -> (D <= dist q)%nat;
  klvl_hi : forall v, v ∈ keyVisited st -> (dist v <= S D)%nat;
  klvl_done : forall v,
      v ∈ keyVisited st -> v ∉ keyQueue st -> v ∉ busy ->
      (dist v <= D)%nat /\ goalTest exit v = false
      /\ forall w, kstep dungeon v w ->
                   w ∈ keyVisited st /\ (dist w <= S (dist v))%nat;
  klvl_busy : forall v, v ∈ busy ->
                        v ∈ keyVisited st /\ dist v = D /\ goalTest exit v = false
}.

(** ** Fixtures *)

(** The one-row grid of the design document: start, key, door, exit. *)
Definition keyAndDoor : Dungeon := ["SaAE"%string].

(** Grids on which the literal goal cell and the located exit differ. *)
Definition corridor : Dungeon := ["SE"%string].

Definition lastRow : Dungeon :=
  ["#########"; "#########"; "#########"; "#########"; "#########";
   "#####ES  "]%string.

Definition hall : Dungeon :=
  ["SE       "; "         "; "         "; "         "; "         ";
   "         "]%string.

(** A wall between the start and the exit. *)
Definition blocked : Dungeon := ["S#E"%string].

(** A grid with the exit on the cell (5, 8), where the door saves a detour. *)
Definition shortcut : Dungeon :=
  ["#########"; "#########"; "#########"; "#########"; "         ";
   "SaA     E"]%string.

(** A grid without doors, with the exit on the cell (5, 8). *)
Definition openHall : Dungeon :=
  ["         "; "   ###   "; "         "; "         "; "   ##    ";
   "S   #   E"]%string.

(** A grid whose exit is the literal goal cell (5, 8), behind a door. *)
Definition vault : Dungeon :=
  ["#########"; "#########"; "#########"; "#########"; "     a###";
   "S     A E"]%string.

(** * Properties *)

(** ** Bits and characters *)

(** Case analysis on the integer comparisons of the goal. *)
Ltac zcases :=
  rewrite ?Z.gtb_ltb, ?Z.geb_leb in *;
  repeat match goal with
         | |- context [Z.ltb ?a ?b] => destruct (Z.ltb_spec a b)
         | |- context [Z.leb ?a ?b] => destruct (Z.leb_spec a b)
         end;
  simpl in *.

Lemma code_range ch : 0 <= code ch < 256.
Proof.
  unfold code. pose proof (nat_ascii_bounded ch). lia.
Qed.

Lemma code_inj a b : code a = code b -> a = b.
Proof.
  unfold code. intros H. apply Nat2Z.inj in H.
  rewrite <- (ascii_nat_embedding a), <- (ascii_nat_embedding b). by rewrite H.
Qed.

Lemma land_shiftr_1 (keyMask keyBit : Z) :
  0 <= keyBit ->
  negb (Z.land (Z.shiftr keyMask keyBit) 1 =? 0) = Z.testbit keyMask keyBit.
Proof.
  intros Hb.
  change 1 with (Z.ones 1). rewrite Z.land_ones by lia.
  change (2 ^ 1) with 2.
  rewrite <- Z.bit0_mod, Z.shiftr_spec, Z.add_0_l by lia.
  by destruct (Z.testbit keyMask keyBit).
Qed.

Lemma testbit_collectKey (key : ascii) (keyMask i : Z) :
  isKeyLetter key -> 0 <= i ->
  Z.testbit (collectKey key keyMask) i
  = Z.testbit keyMask i || bool_decide (i = keyBitOf key).
Proof.
  unfold isKeyLetter, collectKey, keyBitOf. intros Hk Hi.
  zcases; try lia.
  rewrite Z.lor_spec, Z.shiftl_spec by lia.
  f_equal. case_bool_decide as Hd.
  - subst. by rewrite Z.sub_diag.
  - destruct (Z.ltb_spec (i - (code key - code "a"%char)) 0) as [Hn|Hn].
    + by rewrite Z.testbit_neg_r.
    + change 1 with (2 ^ 0). rewrite Z.pow2_bits_eqb by lia.
      apply Z.eqb_neq. lia.
Qed.

(** The codes of the characters the solver compares with. *)
Ltac codes :=
  change (code "#"%char) with 35 in *;
  change (code "A"%char) with 65 in *;
  change (code "E"%char) with 69 in *;
  change (code "F"%char) with 70 in *;
  change (code "S"%char) with 83 in *;
  change (code "a"%char) with 97 in *;
  change (code "f"%char) with 102 in *.

Lemma code_matchingKey (door : ascii) :
  isDoorLetter door -> code (matchingKey door) = code door + 32.
Proof.
  unfold isDoorLetter. codes. unfold matchingKey, code. intros H.
  rewrite nat_ascii_embedding by lia. lia.
Qed.

(** ** collectKey *)

(** C9: collecting the same symbol twice is collecting it once, and a symbol
    that is not a key letter leaves the key set as it is. *)
Theorem collectKey_idempotent (symbol : ascii) (keySet : Z) :
  collectKey symbol (collectKey symbol keySet) = collectKey symbol keySet
  /\ (~ isKeyLetter symbol -> collectKey symbol keySet = keySet).
Proof.
  unfold collectKey, isKeyLetter. split.
  - zcases; try done. by rewrite <- Z.lor_assoc, Z.lor_diag.
  - intros Hn. zcases; try done. lia.
Qed.

Lemma collectKey_idempotent_witness :
  ~ isKeyLetter "S"%char /\ collectKey "S"%char 5 = 5.
Proof.
  split.
  - unfold isKeyLetter. codes. lia.
  - apply (collectKey_idempotent "S"%char 5). unfold isKeyLetter. codes. lia.
Defined.

(** A collected key is in the set, and the keys held before stay. *)
Lemma collectKey_hasKey (key : ascii) (keySet : Z) :
  isKeyLetter key -> hasKey (collectKey key keySet) key.
Proof.
  intros Hk. unfold hasKey. rewrite testbit_collectKey; [|done|].
  - rewrite bool_decide_eq_true_2 by done. apply orb_true_r.
  - unfold keyBitOf, isKeyLetter in *. lia.
Qed.

Lemma collectKey_grows (symbol : ascii) (keySet i : Z) :
  Z.testbit keySet i = true -> Z.testbit (collectKey symbol keySet) i = true.
Proof.
  unfold collectKey. intros Hi. zcases; try done.
  rewrite Z.lor_spec, Hi. done.
Qed.

(** ** canPassDoor and the edge check of the key-aware engine *)

Lemma canPassDoor_testbit (door : ascii) (keyMask : Z) :
  isDoorLetter door ->
  canPassDoor door keyMask = Z.testbit keyMask (code door - code "A"%char).
Proof.
  unfold isDoorLetter, canPassDoor. intros Hd.
  zcases; try lia.
  rewrite land_shiftr_1 by lia. f_equal. lia.
Qed.

(** C6: [canPassDoor] lets every symbol outside ['A'..'F'] through; for a
    letter of ['A'..'F'] it answers whether the key set holds the matching
    lowercase key; and the edge check of the key-aware engine never blocks a
    step onto ['S'] or ['E']. *)
Theorem canPassDoor_spec (symbol : ascii) (keySet : Z) :
  (~ isDoorLetter symbol -> canPassDoor symbol keySet = true)
  /\ (isDoorLetter symbol ->
      (canPassDoor symbol keySet = true <-> hasKey keySet (matchingKey symbol)))
  /\ (symbol = "S"%char \/ symbol = "E"%char ->
      doorBlocks symbol keySet = false
      /\ forall dungeon rw cl (d : Z * Z),
          isValidPosition dungeon (rw + d.1) (cl + d.2) = true ->
          at_ dungeon (rw + d.1) (cl + d.2) = symbol ->
          nextState dungeon (mkKeyState rw cl keySet) d
          = Some (mkKeyState (rw + d.1) (cl + d.2) keySet)).
Proof.
  split; [|split].
  - unfold isDoorLetter, canPassDoor. intros Hn. zcases; try done. lia.
  - intros Hd. rewrite canPassDoor_testbit by done.
    unfold hasKey, keyBitOf. rewrite code_matchingKey by done.
    codes. by replace (code symbol + 32 - 97) with (code symbol - 65) by lia.
  - intros Hse.
    assert (Hb : doorBlocks symbol keySet = false)
      by (destruct Hse; subst; reflexivity).
    split; [done|].
    intros dungeon rw cl d Hv Hat. unfold nextState. simpl.
    rewrite Hv, Hat, Hb. simpl.
    by destruct Hse; subst.
Qed.

Lemma canPassDoor_spec_witness :
  (~ isDoorLetter "S"%char /\ canPassDoor "S"%char 0 = true)
  /\ (isDoorLetter "E"%char
      /\ (canPassDoor "E"%char 16 = true <-> hasKey 16 (matchingKey "E"%char)))
  /\ (isValidPosition ["SE"%string] (0 + 0) (0 + 1) = true
      /\ at_ ["SE"%string] (0 + 0) (0 + 1) = "E"%char
      /\ nextState ["SE"%string] (mkKeyState 0 0 0) (0, 1)
         = Some (mkKeyState (0 + 0) (0 + 1) 0)).
Proof.
  assert (HS : ~ isDoorLetter "S"%char) by (unfold isDoorLetter; codes; lia).
  assert (HE : isDoorLetter "E"%char) by (unfold isDoorLetter; codes; lia).
  split; [|split].
  - split; [exact HS|].
    destruct (canPassDoor_spec "S"%char 0) as (H1 & _ & _). exact (H1 HS).
  - split; [exact HE|].
    destruct (canPassDoor_spec "E"%char 16) as (_ & H2 & _). exact (H2 HE).
  - split; [reflexivity|]. split; [reflexivity|].
    destruct (canPassDoor_spec "E"%char 0) as (_ & _ & H3).
    destruct H3 as [_ H3]; [by right|].
    apply (H3 ["SE"%string] 0 0 (0, 1)); reflexivity.
Defined.

(** On its own [canPassDoor] counts ['E'] among ['A'..'F'] (it asks for bit 4);
    the engine is kept from asking by the guard of [doorBlocks]. *)
Example canPassDoor_E_without_key : canPassDoor "E"%char 0 = false.
Proof. reflexivity. Qed.

(** ** isPassable *)

Lemma at_symbolAt dungeon rw cl ch :
  symbolAt dungeon rw cl = Some ch -> at_ dungeon rw cl = ch.
Proof. unfold at_. by intros ->. Qed.

(** C7: on a cell within bounds the plain search is stopped by the wall and by
    the door letters other than the exit letter, and by nothing else; the exit
    and the key letters are open. *)
Theorem isPassable_spec (dungeon : Dungeon) (rw cl : Z) (symbol : ascii) :
  inBounds dungeon rw cl = true ->
  symbolAt dungeon rw cl = Some symbol ->
  (isPassable dungeon rw cl = true
   <-> symbol <> "#"%char /\ ~ (isDoorLetter symbol /\ symbol <> "E"%char))
  /\ (symbol = "E"%char -> isPassable dungeon rw cl = true)
  /\ (isKeyLetter symbol -> isPassable dungeon rw cl = true).
Proof.
  unfold inBounds, isPassable, isDoorLetter, isKeyLetter.
  intros Hin Hsym. apply at_symbolAt in Hsym.
  apply negb_true_iff in Hin. rewrite Hin, Hsym. cbv zeta.
  destruct (Ascii.eqb_spec symbol "#") as [->|Hw];
    [codes; split; [split; [done|by intros []]|split; [done|lia]]|].
  destruct (Ascii.eqb_spec symbol "E") as [->|He].
  - split; [|done]. split; [|done]. intros _. split; [done|]. by intros [_ []].
  - codes. zcases; (split; [split|split]); try done; try lia;
      try (intros _; split; [done|lia]); try (intros [_ []]; split; [lia|done]).
Qed.

Lemma isPassable_spec_witness :
  (inBounds ["SaAE"%string] 0 3 = true
   /\ symbolAt ["SaAE"%string] 0 3 = Some "E"%char
   /\ isPassable ["SaAE"%string] 0 3 = true)
  /\ (isKeyLetter "a"%char /\ isPassable ["SaAE"%string] 0 1 = true).
Proof.
  split.
  - split; [reflexivity|]. split; [reflexivity|].
    destruct (isPassable_spec ["SaAE"%string] 0 3 "E"%char eq_refl eq_refl)
      as (_ & H2 & _).
    exact (H2 eq_refl).
  - assert (Ha : isKeyLetter "a"%char) by (unfold isKeyLetter; codes; lia).
    split; [exact Ha|].
    destruct (isPassable_spec ["SaAE"%string] 0 1 "a"%char eq_refl eq_refl)
      as (_ & _ & H3).
    exact (H3 Ha).
Defined.

(** ** findPosition *)

Lemma findInRow_None (line : string) (target : ascii) (cl : Z) :
  findInRow line target cl = None <->
  forall j, String.get j line <> Some target.
Proof.
  revert cl. induction line as [|ch rest IH]; intros cl; simpl.
  - split; [by intros _ []|done].
  - destruct (Ascii.eqb_spec ch target) as [->|Hne].
    + split; [done|]. intros H. by destruct (H O).
    + rewrite IH. split.
      * intros H [|j]; [congruence|apply H].
      * intros H j. apply (H (S j)).
Qed.

Lemma findInRow_Some (line : string) (target : ascii) (cl k : Z) :
  findInRow line target cl = Some k ->
  cl <= k /\ String.get (Z.to_nat (k - cl)) line = Some target.
Proof.
  revert cl. induction line as [|ch rest IH]; intros cl; simpl; [done|].
  destruct (Ascii.eqb_spec ch target) as [->|Hne].
  - intros [= <-]. by rewrite Z.sub_diag.
  - intros H. apply IH in H as [Hle Hget]. split; [lia|].
    replace (Z.to_nat (k - cl)) with (S (Z.to_nat (k - (cl + 1)))) by lia.
    done.
Qed.

Lemma findFrom_spec (dungeon : Dungeon) (target : ascii) (row0 : Z) :
  (findFrom dungeon target row0 = mkCell (-1) (-1)
   /\ forall i line, dungeon !! i = Some line ->
                     forall j, String.get j line <> Some target)
  \/ (exists a b line,
         findFrom dungeon target row0 = mkCell a b
         /\ row0 <= a /\ 0 <= b
         /\ dungeon !! Z.to_nat (a - row0) = Some line
         /\ String.get (Z.to_nat b) line = Some target).
Proof.
  revert row0. induction dungeon as [|line rest IH]; intros row0; simpl.
  - left. split; [done|]. by intros i line.
  - destruct (findInRow line target 0) as [k|] eqn:Hrow.
    + right. apply findInRow_Some in Hrow as [Hk Hget].
      exists row0, k, line. rewrite Z.sub_diag. simpl.
      by rewrite Z.sub_0_r in Hget.
    + destruct (IH (row0 + 1)) as [[Hs Hall]|(a & b & ln & Hf & Ha & Hb & Hl & Hg)].
      * left. split; [done|]. intros [|i] ln; simpl.
        -- intros [= <-]. by apply findInRow_None with (cl := 0).
        -- apply Hall.
      * right. exists a, b, ln. split; [done|]. split; [lia|]. split; [done|].
        split; [|done].
        replace (Z.to_nat (a - row0)) with (S (Z.to_nat (a - (row0 + 1)))) by lia.
        done.
Qed.

(** [findPosition] returns the sentinel exactly on the grids that do not hold
    the symbol, and otherwise a cell that holds it. *)
Lemma findPosition_spec (dungeon : Dungeon) (target : ascii) :
  (findPosition dungeon target = mkCell (-1) (-1) /\ missing dungeon target)
  \/ (0 <= r (findPosition dungeon target)
      /\ 0 <= c (findPosition dungeon target)
      /\ symbolAt dungeon (r (findPosition dungeon target))
                  (c (findPosition dungeon target)) = Some target).
Proof.
  unfold findPosition, missing.
  destruct (findFrom_spec dungeon target 0)
    as [[Hs Hall]|(a & b & ln & Hf & Ha & Hb & Hl & Hg)].
  - left. split; [done|]. intros rw cl. unfold symbolAt.
    destruct (_ || _); [done|].
    destruct (dungeon !! Z.to_nat rw) as [ln|] eqn:Hl; [|done].
    by apply (Hall _ _ Hl).
  - right. rewrite Hf. simpl. split; [done|]. split; [done|].
    unfold symbolAt. rewrite Z.sub_0_r in Hl. rewrite Hl.
    by zcases; try lia.
Qed.

Lemma findPosition_missing (dungeon : Dungeon) (target : ascii) :
  findPosition dungeon target = mkCell (-1) (-1) <-> missing dungeon target.
Proof.
  destruct (findPosition_spec dungeon target) as [[Hs Hm]|(Hr & Hc & Hsym)].
  - by rewrite Hs.
  - split.
    + intros Hs. rewrite Hs in Hr. simpl in Hr. lia.
    + intros Hm. by destruct (Hm _ _ Hsym).
Qed.

(** ** Grids without a start or without an exit *)

(** C8: on a grid that holds no ['S'] or no ['E'], [findPosition] gives the
    sentinel and both engines return the empty sequence. *)
Theorem missing_start_or_exit (dungeon : Dungeon) :
  missing dungeon "S"%char \/ missing dungeon "E"%char ->
  (findPosition dungeon "S"%char = mkCell (-1) (-1)
   \/ findPosition dungeon "E"%char = mkCell (-1) (-1))
  /\ bfsPath dungeon = Some []
  /\ bfsPathKeys dungeon = Some [].
Proof.
  intros Hm.
  assert (Hs : findPosition dungeon "S"%char = mkCell (-1) (-1)
               \/ findPosition dungeon "E"%char = mkCell (-1) (-1))
    by (destruct Hm as [Hm|Hm]; apply findPosition_missing in Hm; auto).
  split; [done|].
  unfold bfsPath, bfsPathKeys.
  destruct Hs as [-> | ->]; simpl; [done|].
  by rewrite !orb_true_r.
Qed.

Lemma missing_start_or_exit_witness :
  (missing ["S #"%string; "   "%string] "S"%char
   \/ missing ["S #"%string; "   "%string] "E"%char)
  /\ bfsPath ["S #"%string; "   "%string] = Some []
  /\ bfsPathKeys ["S #"%string; "   "%string] = Some [].
Proof.
  assert (Hm : missing ["S #"%string; "   "%string] "E"%char)
    by (apply findPosition_missing; reflexivity).
  split; [by right|].
  apply (missing_start_or_exit ["S #"%string; "   "%string]). by right.
Defined.

(** ** Transitions of the key-aware search *)

Lemma nextState_inv (dungeon : Dungeon) (s s' : KeyState) (d : Z * Z) :
  nextState dungeon s d = Some s' ->
  row s' = row s + d.1 /\ col s' = col s + d.2
  /\ isValidPosition dungeon (row s') (col s') = true
  /\ doorBlocks (at_ dungeon (row s') (col s')) (keyMask s) = false
  /\ keyMask s' = pickUp (at_ dungeon (row s') (col s')) (keyMask s).
Proof.
  unfold nextState. cbv zeta.
  destruct (isValidPosition _ _ _) eqn:Hv; simpl; [|done].
  destruct (doorBlocks _ _) eqn:Hb; [done|].
  by intros [= <-].
Qed.

Lemma pickUp_grows (symbol : ascii) (keySet i : Z) :
  Z.testbit keySet i = true -> Z.testbit (pickUp symbol keySet) i = true.
Proof.
  unfold pickUp. intros Hi. destruct (_ && _); [|done].
  by apply collectKey_grows.
Qed.

Lemma pickUp_key (key : ascii) (keySet : Z) :
  isKeyLetter key -> hasKey (pickUp key keySet) key.
Proof.
  intros Hk. unfold pickUp.
  assert (Ht : (code key >=? code "a"%char) && (code key <=? code "f"%char) = true)
    by (unfold isKeyLetter in Hk; zcases; lia).
  rewrite Ht. by apply collectKey_hasKey.
Qed.

Lemma kstep_grows (dungeon : Dungeon) (s s' : KeyState) (i : Z) :
  kstep dungeon s s' ->
  Z.testbit (keyMask s) i = true -> Z.testbit (keyMask s') i = true.
Proof.
  intros (d & _ & Hn) Hi. apply nextState_inv in Hn as (_ & _ & _ & _ & ->).
  by apply pickUp_grows.
Qed.

Lemma walk_grows (dungeon : Dungeon) (s0 s : KeyState) trace (i : Z) :
  walk dungeon s0 trace s ->
  Z.testbit (keyMask s0) i = true -> Z.testbit (keyMask s) i = true.
Proof.
  induction 1 as [|trace s s' _ IH Hstep]; [done|].
  intros Hi. eapply kstep_grows; eauto.
Qed.

(** The states the loop body enqueues are successors of the dequeued one. *)
Lemma visitDirection_enqueues dungeon current st (d : Z * Z) (s : KeyState) :
  d ∈ directions ->
  s ∈ keyQueue (visitDirection dungeon current st d) ->
  s ∈ keyQueue st \/ kstep dungeon current s.
Proof.
  intros Hd. unfold visitDirection.
  destruct (nextState dungeon current d) as [ns|] eqn:Hn; [|by left].
  case_bool_decide; [|by left]. simpl.
  intros [Hin|Hin%list_elem_of_singleton]%elem_of_app; [by left|].
  subst. right. by exists d.
Qed.

(** C10: a transition of the key-aware search never clears a bit of the key
    set, and the key set of a state reached from [s0] holds every key letter
    the walk stepped on. *)
Theorem keySet_only_grows (dungeon : Dungeon) :
  (forall s s', kstep dungeon s s' ->
                Z.land (keyMask s) (keyMask s') = keyMask s
                /\ forall i, Z.testbit (keyMask s) i = true ->
                             Z.testbit (keyMask s') i = true)
  /\ (forall s0 trace s,
         walk dungeon s0 trace s ->
         (forall i, Z.testbit (keyMask s0) i = true ->
                    Z.testbit (keyMask s) i = true)
         /\ forall t key,
             t ∈ trace -> isKeyLetter key ->
             symbolAt dungeon (row t) (col t) = Some key ->
             hasKey (keyMask s) key).
Proof.
  split.
  - intros s s' Hstep.
    assert (Hg : forall i, Z.testbit (keyMask s) i = true ->
                           Z.testbit (keyMask s') i = true)
      by (intros i; by apply kstep_grows with (dungeon := dungeon)).
    split; [|done].
    apply Z.bits_inj'. intros n _. rewrite Z.land_spec.
    destruct (Z.testbit (keyMask s) n) eqn:Hn; [|done].
    by rewrite (Hg n Hn).
  - intros s0 trace s Hw. split; [intros i; by eapply walk_grows|].
    induction Hw as [|trace s s' Hw IH Hstep]; intros t key Ht Hk Hsym.
    + by apply elem_of_nil in Ht.
    + apply elem_of_app in Ht as [Ht|Ht%list_elem_of_singleton].
      * eapply kstep_grows; [done|]. by eapply IH.
      * subst t. destruct Hstep as (d & _ & Hn).
        apply nextState_inv in Hn as (_ & _ & _ & _ & ->).
        apply at_symbolAt in Hsym. rewrite Hsym. by apply pickUp_key.
Qed.

Lemma keySet_only_grows_witness :
  kstep ["SaAE"%string] (mkKeyState 0 0 0) (mkKeyState 0 1 1)
  /\ Z.land 0 1 = 0
  /\ walk ["SaAE"%string] (mkKeyState 0 0 0)
          ([] ++ [mkKeyState 0 1 1]) (mkKeyState 0 1 1)
  /\ hasKey 1 "a"%char.
Proof.
  assert (Hstep : kstep ["SaAE"%string] (mkKeyState 0 0 0) (mkKeyState 0 1 1)).
  { exists (0, 1). split; [|reflexivity].
    do 3 apply list_elem_of_further. apply list_elem_of_here. }
  assert (Hwalk : walk ["SaAE"%string] (mkKeyState 0 0 0)
                       ([] ++ [mkKeyState 0 1 1]) (mkKeyState 0 1 1))
    by (eapply walk_step; [apply walk_here|exact Hstep]).
  destruct (keySet_only_grows ["SaAE"%string]) as [H1 H2].
  split; [exact Hstep|]. split; [exact (proj1 (H1 _ _ Hstep))|].
  split; [exact Hwalk|].
  apply (proj2 (H2 _ _ _ Hwalk) (mkKeyState 0 1 1) "a"%char).
  - apply list_elem_of_here.
  - unfold isKeyLetter. codes. lia.
  - reflexivity.
Defined.

(** ** Parent chains *)

Lemma linked_snoc {K : Type} (R : K -> K -> Prop) (l : list K) (p v : K) :
  linked R l -> last l = Some p -> R p v -> linked R (l ++ [v]).
Proof.
  intros Hl Hlast HR i a b Ha Hb.
  assert (Hi : (S i < length (l ++ [v]))%nat) by (by eapply lookup_lt_Some).
  rewrite length_app in Hi. simpl in Hi.
  rewrite lookup_app_l in Ha by lia.
  destruct (decide (S i = length l)) as [Heq|Hne].
  - rewrite lookup_app_r, Heq, Nat.sub_diag in Hb by lia.
    simpl in Hb. injection Hb as <-.
    rewrite last_lookup, <- Heq in Hlast. simpl in Hlast. congruence.
  - rewrite lookup_app_l in Hb by lia. by eapply Hl.
Qed.

Section Chain.
Context `{Countable K}.

Lemma chain_insert (parents : gmap K K) (start v n p : K) (l : list K) :
  chain parents start v l -> parents !! n = None ->
  chain (<[n := p]> parents) start v l.
Proof.
  intros Hc Hn. induction Hc as [|v q l Hv Hq _ IH]; [constructor|].
  apply chain_link with q; [done| |done].
  rewrite lookup_insert_ne; [done|]. intros ->. congruence.
Qed.

Lemma chain_ends (parents : gmap K K) (start v : K) (l : list K) :
  chain parents start v l -> head l = Some start /\ last l = Some v.
Proof.
  induction 1 as [|v q l _ _ _ [IHh IHl]]; [done|].
  split; [|by rewrite last_snoc].
  destruct l; [done|]. simpl in *. done.
Qed.

Lemma chain_linked (R : K -> K -> Prop) (parents : gmap K K) (start v : K) l :
  (forall x p, parents !! x = Some p -> R p x) ->
  chain parents start v l -> linked R l.
Proof.
  intros HR. induction 1 as [|v q l _ Hq Hc IH].
  - intros [|i] a b; simpl; [|done]. done.
  - apply linked_snoc with q; [done| |by apply HR].
    by apply chain_ends in Hc as [_ ?].
Qed.
End Chain.

(** ** reconstructPath on a chain *)

Lemma Cell_eqb (a b : Cell) :
  (r a =? r b) && (c a =? c b) = bool_decide (a = b).
Proof.
  destruct a as [ra ca], b as [rb cb]. simpl.
  case_bool_decide as Hd.
  - injection Hd as -> ->. by rewrite !Z.eqb_refl.
  - apply andb_false_iff.
    destruct (Z.eqb_spec ra rb), (Z.eqb_spec ca cb); subst; auto. done.
Qed.

Lemma reconstructLoop_chain (parents : gmap Cell Cell) (start v : Cell) l :
  chain parents start v l ->
  forall fuel path,
    (length l <= fuel)%nat ->
    reconstructLoop fuel parents start v path = Some (l ++ rev path).
Proof.
  induction 1 as [|v p l Hv Hp _ IH]; intros fuel path Hfuel.
  - destruct fuel as [|fuel]; [simpl in Hfuel; lia|]. simpl.
    rewrite Cell_eqb, bool_decide_eq_true_2 by done. simpl.
    by rewrite rev_app_distr.
  - rewrite length_app in Hfuel. simpl in Hfuel.
    destruct fuel as [|fuel]; [lia|]. simpl.
    rewrite Cell_eqb, bool_decide_eq_false_2 by done. simpl.
    rewrite Hp, IH by lia.
    by rewrite rev_app_distr, <- app_assoc.
Qed.

(** ** Steps of the plain search *)

(** The four offsets of [directions]. *)
Lemma directions_spec (d : Z * Z) :
  d ∈ directions <-> d = (-1, 0) \/ d = (1, 0) \/ d = (0, -1) \/ d = (0, 1).
Proof.
  unfold directions. simpl. rewrite !elem_of_cons, elem_of_nil. tauto.
Qed.

Lemma getNeighbors_spec (dungeon : Dungeon) (current v : Cell) :
  v ∈ getNeighbors dungeon current <->
  isPassable dungeon (r v) (c v) = true
  /\ exists d, d ∈ directions /\ v = mkCell (r current + d.1) (c current + d.2).
Proof.
  unfold getNeighbors. rewrite list_elem_of_In, in_flat_map. split.
  - intros (d & Hd & Hin). apply list_elem_of_In in Hd. cbv zeta in Hin.
    destruct (isPassable _ _ _) eqn:Hp; [|done].
    destruct Hin as [<- | Hin]; [|done]. split; [done|]. by exists d.
  - intros (Hp & d & Hd & ->). exists d. split; [by apply list_elem_of_In|].
    cbv zeta. simpl in Hp. rewrite Hp. by left.
Qed.

Lemma getNeighbors_adjacent (dungeon : Dungeon) (current v : Cell) :
  v ∈ getNeighbors dungeon current -> adjacent4 current v.
Proof.
  intros (_ & d & Hd & ->)%getNeighbors_spec.
  apply directions_spec in Hd. unfold adjacent4. simpl.
  destruct Hd as [-> | [-> | [-> | ->]]]; simpl; lia.
Qed.

Lemma isPassable_inBounds (dungeon : Dungeon) (rw cl : Z) :
  isPassable dungeon rw cl = true -> inBounds dungeon rw cl = true.
Proof.
  unfold isPassable, inBounds. by destruct (_ || _).
Qed.

(** ** Counting the cells within bounds *)

Lemma length_bind_const {A B : Type} (f : A -> list B) (l : list A) (m : nat) :
  (forall x, length (f x) = m) -> length (l ≫= f) = (length l * m)%nat.
Proof.
  intros Hf. induction l as [|x l IH]; [done|].
  rewrite bind_cons, length_app, Hf, IH. simpl. lia.
Qed.

Lemma length_allCells (dungeon : Dungeon) :
  length (allCells dungeon) = cellCount dungeon.
Proof.
  unfold allCells, cellCount.
  rewrite (length_bind_const _ _ (Z.to_nat (cols dungeon))).
  - by rewrite length_seq.
  - intros i. by rewrite length_fmap, length_seq.
Qed.

Lemma inBounds_spec (dungeon : Dungeon) (rw cl : Z) :
  inBounds dungeon rw cl = true <->
  0 <= rw < rows dungeon /\ 0 <= cl < cols dungeon.
Proof.
  unfold inBounds. rewrite negb_true_iff. zcases; split; try done; try lia.
Qed.

Lemma inBounds_allCells (dungeon : Dungeon) (v : Cell) :
  inBounds dungeon (r v) (c v) = true -> v ∈ allCells dungeon.
Proof.
  intros [Hr Hc]%inBounds_spec. unfold rows in Hr.
  unfold allCells. apply list_elem_of_bind.
  exists (Z.to_nat (r v)). split; [|apply elem_of_seq; lia].
  apply list_elem_of_fmap. exists (Z.to_nat (c v)).
  split; [|apply elem_of_seq; lia].
  destruct v as [rv cv]. simpl in *. f_equal; lia.
Qed.

Lemma size_list_to_set_le `{Countable K} (l : list K) :
  (size (list_to_set l : gset K) <= length l)%nat.
Proof.
  induction l as [|x l IH]; [done|].
  rewrite list_to_set_cons, size_union_alt, size_singleton. simpl.
  assert (size (list_to_set l ∖ {[x]} : gset K) <= size (list_to_set l : gset K))%nat
    by (apply subseteq_size; set_solver).
  lia.
Qed.

(** A set of cells that are all within bounds, the start apart, has at most
    one element more than the grid has cells. *)
Lemma size_visited (dungeon : Dungeon) (start : Cell) (V : gset Cell) :
  (forall v, v ∈ V -> v = start \/ inBounds dungeon (r v) (c v) = true) ->
  (size V <= S (cellCount dungeon))%nat.
Proof.
  intros HV. rewrite <- length_allCells.
  change (S (length (allCells dungeon))) with (length (start :: allCells dungeon)).
  etrans; [|apply size_list_to_set_le].
  apply subseteq_size. intros v Hv. apply elem_of_list_to_set.
  destruct (HV v Hv) as [->|Hb]; [by left|].
  right. by apply inBounds_allCells.
Qed.

(** ** The invariant of the plain search loop *)

Lemma bfsInv_init (dungeon : Dungeon) (start : Cell) :
  bfsInv dungeon start (mkBfs [start] {[start]} ∅).
Proof.
  split; simpl.
  - set_solver.
  - intros q Hq. set_solver.
  - intros v Hv. left. set_solver.
  - done.
  - intros v ->%elem_of_singleton. exists [start]. split; [constructor|].
    simpl. lia.
  - intros v p. by rewrite lookup_empty.
Qed.

Lemma bfsInv_dequeue dungeon start current rest V P :
  bfsInv dungeon start (mkBfs (current :: rest) V P) ->
  bfsInv dungeon start (mkBfs rest V P) /\ current ∈ V.
Proof.
  intros [H1 H2 H3 H4 H5 H6]; simpl in *. split.
  - split; simpl; try done. intros q Hq. apply H2. by right.
  - apply H2. by left.
Qed.

Lemma visitNeighbor_inv dungeon start current st neighbor :
  bfsInv dungeon start st ->
  current ∈ visited st ->
  neighbor ∈ getNeighbors dungeon current ->
  bfsInv dungeon start (visitNeighbor dungeon current st neighbor)
  /\ current ∈ visited (visitNeighbor dungeon current st neighbor)
  /\ (bfsMeasure dungeon (visitNeighbor dungeon current st neighbor)
      <= bfsMeasure dungeon st)%nat.
Proof.
  intros Hinv Hcur Hnb. unfold visitNeighbor.
  destruct (isPassable _ _ _ && _) eqn:Hcond; [|done].
  apply andb_true_iff in Hcond as [Hpass Hfresh].
  apply bool_decide_eq_true in Hfresh.
  destruct Hinv as [H1 H2 H3 H4 H5 H6].
  assert (Hb : inBounds dungeon (r neighbor) (c neighbor) = true)
    by (by apply isPassable_inBounds).
  assert (HP : parents st !! neighbor = None) by (by apply H4).
  assert (Hinv' : bfsInv dungeon start
                    (mkBfs (bfsQueue st ++ [neighbor]) ({[neighbor]} ∪ visited st)
                           (<[neighbor := current]> (parents st)))).
  { split; simpl.
    - set_solver.
    - intros q [Hq|Hq%list_elem_of_singleton]%elem_of_app; [|set_solver].
      apply elem_of_union_r. by apply H2.
    - intros v [->%elem_of_singleton|Hv]%elem_of_union; [by right|by apply H3].
    - intros v Hv. rewrite lookup_insert_ne by set_solver. apply H4. set_solver.
    - intros v [->%elem_of_singleton|Hv]%elem_of_union.
      + destruct (H5 current Hcur) as (l & Hc & Hlen).
        exists (l ++ [neighbor]). split.
        * apply chain_link with current.
          -- intros ->. done.
          -- apply lookup_insert_eq.
          -- by apply chain_insert.
        * rewrite length_app, map_size_insert_None by done. simpl. lia.
      + destruct (H5 v Hv) as (l & Hc & Hlen).
        exists l. split; [by apply chain_insert|].
        rewrite map_size_insert_None by done. lia.
    - intros v p. destruct (decide (neighbor = v)) as [<-|Hne].
      + rewrite lookup_insert_eq. by intros [= <-].
      + rewrite lookup_insert_ne by done. apply H6. }
  split; [done|]. split; [simpl; set_solver|].
  unfold bfsMeasure. simpl.
  pose proof (size_visited dungeon start _ (inv_bounds _ _ _ Hinv')) as Hsz.
  simpl in Hsz.
  rewrite size_union, size_singleton in * by set_solver.
  rewrite length_app. simpl. lia.
Qed.

Lemma foldl_visitNeighbor_inv dungeon start current neighbors :
  forall st,
    bfsInv dungeon start st ->
    current ∈ visited st ->
    (forall n, n ∈ neighbors -> n ∈ getNeighbors dungeon current) ->
    bfsInv dungeon start (foldl (visitNeighbor dungeon current) st neighbors)
    /\ (bfsMeasure dungeon (foldl (visitNeighbor dungeon current) st neighbors)
        <= bfsMeasure dungeon st)%nat.
Proof.
  induction neighbors as [|n ns IH]; intros st Hinv Hcur Hns; simpl; [done|].
  destruct (visitNeighbor_inv dungeon start current st n Hinv Hcur)
    as (Hinv' & Hcur' & Hm); [apply Hns; by left|].
  destruct (IH _ Hinv' Hcur') as [Hinv'' Hm'].
  - intros m Hm0. apply Hns. by right.
  - split; [done|lia].
Qed.

(** ** The plain search returns, and returns a route *)

Lemma bfsLoop_returns dungeon start exit fuel :
  forall st,
    bfsInv dungeon start st ->
    (bfsMeasure dungeon st < fuel)%nat ->
    exists path, bfsLoop fuel dungeon start exit st = Some path
                 /\ (path = [] \/ plainRoute dungeon start exit path).
Proof.
  induction fuel as [|fuel IH]; intros st Hinv Hfuel; [lia|].
  destruct st as [queue V P]. simpl.
  destruct queue as [|current rest]; [exists []; auto|].
  destruct (bfsInv_dequeue _ _ _ _ _ _ Hinv) as [Hinv' Hcur].
  destruct (decide (current = exit)) as [->|Hne].
  - destruct (inv_chain _ _ _ Hinv exit Hcur) as (l & Hc & Hlen). simpl in *.
    exists l. unfold reconstructPath.
    rewrite (reconstructLoop_chain P start exit l Hc) by done.
    simpl. rewrite app_nil_r. split; [done|]. right.
    destruct (chain_ends _ _ _ _ Hc) as [Hh Hl].
    split; [done|]. split; [done|].
    eapply chain_linked; [|done]. apply (inv_edge _ _ _ Hinv).
  - destruct (foldl_visitNeighbor_inv dungeon start current
                (getNeighbors dungeon current) _ Hinv' Hcur) as [Hinv'' Hm];
      [done|].
    apply IH; [done|].
    unfold bfsMeasure in *. simpl in *. lia.
Qed.

(** The plain search returns on every grid; a non-empty result leads from the
    located start to the located exit by steps to passable neighbours. *)
Theorem bfsPath_returns_route (dungeon : Dungeon) :
  exists path,
    bfsPath dungeon = Some path
    /\ (path = []
        \/ plainRoute dungeon (findPosition dungeon "S"%char)
                      (findPosition dungeon "E"%char) path).
Proof.
  unfold bfsPath. cbv zeta.
  destruct (_ || _); [exists []; auto|].
  apply bfsLoop_returns; [apply bfsInv_init|].
  unfold bfsMeasure, bfsFuel. cbn [visited bfsQueue length].
  rewrite size_singleton. lia.
Qed.

(** Every two consecutive cells of a route are one step apart, and every cell
    after the first is passable. *)
Lemma plainRoute_adjacent dungeon start goal path :
  plainRoute dungeon start goal path ->
  linked adjacent4 path
  /\ forall (i : nat) v, path !! S i = Some v ->
                         isPassable dungeon (r v) (c v) = true.
Proof.
  intros (_ & _ & Hl). split.
  - intros i a b Ha Hb. eapply getNeighbors_adjacent. by eapply Hl.
  - intros i v Hv.
    destruct (lookup_lt_is_Some_2 path i) as [a Ha];
      [apply lookup_lt_Some in Hv; lia|].
    pose proof (Hl i a v Ha Hv) as Hs. by apply getNeighbors_spec in Hs as [? _].
Qed.

(** ** Levels of the plain search *)

Lemma linked_snoc_inv {K : Type} (R : K -> K -> Prop) (l : list K) (v : K) :
  linked R (l ++ [v]) ->
  linked R l /\ forall u, last l = Some u -> R u v.
Proof.
  intros Hl. split.
  - intros i a b Ha Hb. apply (Hl i a b).
    + by apply lookup_app_l_Some.
    + by apply lookup_app_l_Some.
  - intros u Hu. rewrite last_lookup in Hu.
    destruct l as [|x l]; [done|]. simpl in Hu.
    apply (Hl (length l) u v).
    + by apply lookup_app_l_Some.
    + change (S (length l)) with (length (x :: l)).
      by rewrite lookup_app_r, Nat.sub_diag by lia.
Qed.

Lemma lvlInv_init dungeon start exit :
  lvlInv dungeon start exit (fun _ => O) O ∅ (mkBfs [start] {[start]} ∅).
Proof.
  split; simpl; try done.
  - intros v ->%elem_of_singleton. lia.
  - intros v ->%elem_of_singleton Hq. destruct Hq. by left.
Qed.

Lemma lvlInv_dequeue dungeon start exit dist D current rest V P :
  lvlInv dungeon start exit dist D ∅ (mkBfs (current :: rest) V P) ->
  current ∈ V -> current <> exit ->
  lvlInv dungeon start exit dist (dist current) {[current]} (mkBfs rest V P).
Proof.
  intros [H1 H2 H3 H4 H5 H6 H7] Hcur Hne; simpl in *.
  assert (HD : (D <= dist current)%nat) by (apply H4; by left).
  split; simpl; try done.
  - intros i j qi qj Hij Hi Hj. by apply (H3 (S i) (S j)); [lia| |].
  - intros q [j Hj]%list_elem_of_lookup. by apply (H3 O (S j)); [lia| |].
  - intros v Hv. specialize (H5 v Hv). lia.
  - intros v Hv Hq Hb.
    destruct (H6 v Hv) as (Hd & Hex & Hn); [|done|].
    + intros [->|Hin]%elem_of_cons; [|done]. apply Hb. by apply elem_of_singleton.
    + split; [lia|done].
  - intros v ->%elem_of_singleton. done.
Qed.

Lemma lvlInv_finish dungeon start exit dist D current st :
  lvlInv dungeon start exit dist D {[current]} st ->
  (forall w, w ∈ getNeighbors dungeon current -> w ∈ visited st) ->
  lvlInv dungeon start exit dist D ∅ st.
Proof.
  intros [H1 H2 H3 H4 H5 H6 H7] Hall.
  split; try done.
  intros v Hv Hq _. destruct (decide (v = current)) as [->|Hne].
  - destruct (H7 current) as (_ & Hd & Hex); [by apply elem_of_singleton|].
    split; [lia|]. split; [done|].
    intros w Hw. split; [by apply Hall|].
    rewrite Hd. apply H5. by apply Hall.
  - apply H6; [done|done|]. by intros ?%elem_of_singleton.
Qed.

Lemma visitNeighbor_lvl dungeon start exit dist D current st neighbor :
  bfsInv dungeon start st ->
  lvlInv dungeon start exit dist D {[current]} st ->
  neighbor ∈ getNeighbors dungeon current ->
  exists dist',
    lvlInv dungeon start exit dist' D {[current]}
           (visitNeighbor dungeon current st neighbor)
    /\ neighbor ∈ visited (visitNeighbor dungeon current st neighbor)
    /\ visited st ⊆ visited (visitNeighbor dungeon current st neighbor).
Proof.
  intros Hinv Hlvl Hnb.
  assert (Hpass : isPassable dungeon (r neighbor) (c neighbor) = true)
    by (by apply getNeighbors_spec in Hnb as [? _]).
  unfold visitNeighbor. rewrite Hpass. simpl.
  case_bool_decide as Hfresh; [|exists dist; split; [done|]; split; [|done]].
  2: { exact Hfresh. }
  destruct Hlvl as [H1 H2 H3 H4 H5 H6 H7].
  destruct (H7 current) as (Hcur & Hd & Hex); [by apply elem_of_singleton|].
  set (dist' := fun x => if decide (x = neighbor) then S D else dist x).
  assert (Hold : forall v, v ∈ visited st -> dist' v = dist v).
  { intros v Hv. unfold dist'. case_decide; [by subst|done]. }
  assert (Hnew : dist' neighbor = S D).
  { unfold dist'. by rewrite decide_True. }
  assert (Hq : forall q, q ∈ bfsQueue st -> q ∈ visited st)
    by apply (inv_queue _ _ _ Hinv).
  exists dist'. split; [|simpl; set_solver].
  split; simpl.
  - rewrite Hold; [done|]. apply (inv_start _ _ _ Hinv).
  - intros v p. destruct (decide (neighbor = v)) as [<-|Hne].
    + rewrite lookup_insert_eq. intros [= <-].
      split; [set_solver|]. by rewrite Hnew, Hold, Hd.
    + rewrite lookup_insert_ne by done. intros Hp.
      destruct (H2 v p Hp) as [Hpv Hdv]. split; [set_solver|].
      rewrite (Hold p) by done.
      unfold dist'. rewrite decide_False by done. done.
  - intros i j qi qj Hij Hi Hj.
    assert (Hqi : qi ∈ visited st \/ qi = neighbor).
    { apply list_elem_of_lookup_2 in Hi.
      apply elem_of_app in Hi as [Hi|Hi%list_elem_of_singleton]; auto. }
    destruct (decide (j < length (bfsQueue st))%nat) as [Hlt|Hge].
    + rewrite lookup_app_l in Hi, Hj by lia.
      rewrite !Hold by (apply Hq; by eapply list_elem_of_lookup_2).
      by apply (H3 i j).
    + rewrite lookup_app_r in Hj by lia.
      destruct (j - length (bfsQueue st))%nat; [|done].
      simpl in Hj. injection Hj as <-. rewrite Hnew.
      destruct Hqi as [Hqi| ->]; [|by rewrite Hnew].
      rewrite Hold by done. by apply H5.
  - intros q [Hin|Hin%list_elem_of_singleton]%elem_of_app.
    + rewrite Hold by (by apply Hq). by apply H4.
    + subst. rewrite Hnew. lia.
  - intros v [->%elem_of_singleton|Hv]%elem_of_union; [by rewrite Hnew|].
    rewrite Hold by done. by apply H5.
  - intros v Hv Hnq Hb.
    assert (Hvn : v <> neighbor).
    { intros ->. apply Hnq. apply elem_of_app. right. by left. }
    assert (Hv' : v ∈ visited st) by set_solver.
    destruct (H6 v Hv') as (Hdv & Hexv & Hn); [|done|].
    { intros Hin. apply Hnq. apply elem_of_app. by left. }
    rewrite Hold by done. split; [done|]. split; [done|].
    intros w Hw. destruct (Hn w Hw) as [Hwv Hwd].
    split; [set_solver|]. by rewrite Hold.
  - intros v ->%elem_of_singleton. split; [set_solver|].
    by rewrite Hold.
Qed.

Lemma foldl_visitNeighbor_lvl dungeon start exit D current neighbors :
  forall st dist,
    bfsInv dungeon start st ->
    current ∈ visited st ->
    lvlInv dungeon start exit dist D {[current]} st ->
    (forall n, n ∈ neighbors -> n ∈ getNeighbors dungeon current) ->
    exists dist',
      lvlInv dungeon start exit dist' D {[current]}
             (foldl (visitNeighbor dungeon current) st neighbors)
      /\ visited st ⊆ visited (foldl (visitNeighbor dungeon current) st neighbors)
      /\ forall n, n ∈ neighbors ->
                   n ∈ visited (foldl (visitNeighbor dungeon current) st neighbors).
Proof.
  induction neighbors as [|n ns IH]; intros st dist Hinv Hcur Hlvl Hns; simpl.
  - exists dist. split; [done|]. split; [done|]. by intros n Hn%elem_of_nil.
  - assert (Hn : n ∈ getNeighbors dungeon current) by (apply Hns; by left).
    destruct (visitNeighbor_inv dungeon start current st n Hinv Hcur Hn)
      as (Hinv' & Hcur' & _).
    destruct (visitNeighbor_lvl dungeon start exit dist D current st n
                Hinv Hlvl Hn) as (dist1 & Hlvl1 & Hn1 & Hsub1).
    destruct (IH _ dist1 Hinv' Hcur' Hlvl1) as (dist2 & Hlvl2 & Hsub2 & Hall2).
    { intros m Hm. apply Hns. by right. }
    exists dist2. split; [done|]. split; [set_solver|].
    intros m [->|Hm]%elem_of_cons; [set_solver|by apply Hall2].
Qed.

Lemma chain_length_dist dungeon start exit dist D busy st v l :
  lvlInv dungeon start exit dist D busy st ->
  chain (parents st) start v l -> length l = S (dist v).
Proof.
  intros Hlvl. induction 1 as [|v p l _ Hp _ IH]; simpl.
  - by rewrite (lvl_start _ _ _ _ _ _ _ Hlvl).
  - destruct (lvl_parent _ _ _ _ _ _ _ Hlvl v p Hp) as [_ ->].
    rewrite length_app, IH. simpl. lia.
Qed.

(** With every queued cell at level [B] or above, a route of at most [B]
    steps from the start ends on a visited cell whose level is at most the
    number of steps. *)
Lemma route_levels dungeon start exit dist D st (B : nat) :
  bfsInv dungeon start st ->
  lvlInv dungeon start exit dist D ∅ st ->
  (forall q, q ∈ bfsQueue st -> (B <= dist q)%nat) ->
  forall route w,
    head route = Some start -> linked (step dungeon) route ->
    last route = Some w -> (length route <= S B)%nat ->
    w ∈ visited st /\ (S (dist w) <= length route)%nat.
Proof.
  intros Hinv Hlvl Hlow route.
  induction route as [|w' route' IH] using rev_ind; intros w Hh Hl Hlast Hlen;
    [done|].
  rewrite last_snoc in Hlast. injection Hlast as ->.
  rewrite length_app in *. simpl in *.
  destruct route' as [|x route'].
  - simpl in Hh. injection Hh as ->.
    split; [apply (inv_start _ _ _ Hinv)|].
    rewrite (lvl_start _ _ _ _ _ _ _ Hlvl). simpl. lia.
  - apply linked_snoc_inv in Hl as [Hl' Hstep].
    destruct (last (x :: route')) as [u|] eqn:Hu;
      [|by apply last_None in Hu].
    destruct (IH u) as [Hvis Hdu]; [done|done|done|simpl in *; lia|].
    simpl in Hdu, Hlen.
    destruct (lvl_done _ _ _ _ _ _ _ Hlvl u Hvis) as (_ & _ & Hn).
    + intros Hq. specialize (Hlow u Hq). lia.
    + set_solver.
    + destruct (Hn w) as [Hw Hdw]; [by apply Hstep|].
      split; [done|]. simpl. lia.
Qed.

Lemma bfsLoop_shortest dungeon start exit fuel :
  forall st dist D path,
    bfsInv dungeon start st ->
    lvlInv dungeon start exit dist D ∅ st ->
    bfsLoop fuel dungeon start exit st = Some path ->
    forall route,
      plainRoute dungeon start exit route ->
      path <> [] /\ (length path <= length route)%nat.
Proof.
  induction fuel as [|fuel IH]; intros st dist D path Hinv Hlvl Hrun route Hroute;
    [done|].
  destruct st as [queue V P]. simpl in Hrun.
  destruct Hroute as (Hh & Hlast & Hl).
  destruct queue as [|current rest].
  - exfalso.
    assert (Hlow : forall q, q ∈ bfsQueue (mkBfs [] V P) ->
                             (length route <= dist q)%nat)
      by (by intros q ?%elem_of_nil).
    destruct (route_levels dungeon start exit dist D _ (length route) Hinv Hlvl
                Hlow route exit Hh Hl Hlast) as [Hvis _]; [lia|].
    destruct (lvl_done _ _ _ _ _ _ _ Hlvl exit Hvis) as (_ & Hex & _);
      [by intros ?%elem_of_nil|set_solver|done].
  - destruct (bfsInv_dequeue _ _ _ _ _ _ Hinv) as [Hinv' Hcur].
    destruct (decide (current = exit)) as [->|Hne].
    + destruct (inv_chain _ _ _ Hinv exit Hcur) as (l & Hc & Hlen). simpl in *.
      unfold reconstructPath in Hrun.
      rewrite (reconstructLoop_chain P start exit l Hc) in Hrun by done.
      simpl in Hrun. rewrite app_nil_r in Hrun. injection Hrun as <-.
      pose proof (chain_length_dist _ _ _ _ _ _ _ _ _ Hlvl Hc) as Hld.
      split; [by destruct l|]. rewrite Hld.
      destruct (decide (length route <= S (dist exit))%nat) as [Hle|Hgt]; [|lia].
      assert (Hlow : forall q, q ∈ bfsQueue (mkBfs (exit :: rest) V P) ->
                               (dist exit <= dist q)%nat).
      { intros q [j Hj]%list_elem_of_lookup.
        by apply (lvl_sorted _ _ _ _ _ _ _ Hlvl O j exit q); [lia| |]. }
      by destruct (route_levels dungeon start exit dist D _ (dist exit) Hinv Hlvl
                     Hlow route exit Hh Hl Hlast Hle) as [_ Hd].
    + pose proof (lvlInv_dequeue _ _ _ _ _ _ _ _ _ Hlvl Hcur Hne) as Hlvl'.
      destruct (foldl_visitNeighbor_inv dungeon start current
                  (getNeighbors dungeon current) _ Hinv' Hcur) as [Hinv'' _];
        [done|].
      destruct (foldl_visitNeighbor_lvl dungeon start exit (dist current) current
                  (getNeighbors dungeon current) _ dist Hinv' Hcur Hlvl')
        as (dist' & Hlvl'' & _ & Hall); [done|].
      apply lvlInv_finish in Hlvl''; [|done].
      by apply (IH _ dist' (dist current) path Hinv'' Hlvl'' Hrun route).
Qed.

(** The plain search finds a route whenever there is one, and its result has
    no more cells than any route from the start to the exit. *)
Theorem bfsPath_shortest (dungeon : Dungeon) (path route : list Cell) :
  bfsPath dungeon = Some path ->
  r (findPosition dungeon "S"%char) <> -1 ->
  r (findPosition dungeon "E"%char) <> -1 ->
  plainRoute dungeon (findPosition dungeon "S"%char)
             (findPosition dungeon "E"%char) route ->
  path <> [] /\ (length path <= length route)%nat.
Proof.
  unfold bfsPath. cbv zeta. intros Hrun HS HE Hroute.
  apply Z.eqb_neq in HS, HE. rewrite HS, HE in Hrun. simpl in Hrun.
  eapply bfsLoop_shortest; [apply bfsInv_init|apply lvlInv_init|done|done].
Qed.

(** ** The goal test of the key-aware search *)

(** The test holds at the literal cell (5, 8) and nowhere else, whatever the
    located exit is. *)
Lemma goalTest_literal (exit : Cell) (current : KeyState) :
  goalTest exit current = true <-> row current = 5 /\ col current = 8.
Proof. unfold goalTest. rewrite andb_true_iff, !Z.eqb_eq. done. Qed.

(** ** The invariant of the key-aware search loop *)

Lemma KeyState_eqb (a b : KeyState) :
  (row a =? row b) && (col a =? col b) && (keyMask a =? keyMask b)
  = bool_decide (a = b).
Proof.
  destruct a as [ra ca ka], b as [rb cb kb]. simpl.
  case_bool_decide as Hd.
  - injection Hd as -> -> ->. by rewrite !Z.eqb_refl.
  - destruct (Z.eqb_spec ra rb), (Z.eqb_spec ca cb), (Z.eqb_spec ka kb);
      subst; simpl; done.
Qed.

Lemma reconstructKeyLoop_chain (parents : gmap KeyState KeyState)
      (start v : KeyState) l :
  chain parents start v l ->
  forall fuel path,
    (length l <= fuel)%nat ->
    reconstructKeyLoop fuel parents start v path
    = Some ((cellOf <$> l) ++ rev path).
Proof.
  induction 1 as [|v p l Hv Hp _ IH]; intros fuel path Hfuel.
  - destruct fuel as [|fuel]; [simpl in Hfuel; lia|]. simpl.
    rewrite KeyState_eqb, bool_decide_eq_true_2 by done. simpl.
    by rewrite rev_app_distr.
  - rewrite length_app in Hfuel. simpl in Hfuel.
    destruct fuel as [|fuel]; [lia|]. simpl.
    rewrite KeyState_eqb, bool_decide_eq_false_2 by done. simpl.
    rewrite Hp, IH by lia.
    by rewrite rev_app_distr, fmap_app, <- app_assoc.
Qed.

(** Key sets stay within six bits. *)
Lemma pickUp_range (symbol : ascii) (keySet : Z) :
  0 <= keySet < 64 -> 0 <= pickUp symbol keySet < 64.
Proof.
  intros Hk. unfold pickUp, collectKey. codes.
  destruct (_ && _) eqn:Hkey; [|done].
  apply andb_true_iff in Hkey as [Hlo Hhi].
  apply Z.geb_le in Hlo. apply Z.leb_le in Hhi.
  zcases; try lia.
  assert (Hbits : forall i, 6 <= i ->
                            Z.testbit (Z.lor keySet (Z.shiftl 1 (code symbol - 97))) i
                            = false).
  { intros i Hi. rewrite Z.lor_spec, Z.shiftl_spec by lia.
    rewrite (Z.bits_above_log2 keySet i); [|lia|].
    - change 1 with (2 ^ 0). rewrite Z.pow2_bits_eqb by lia.
      apply Z.eqb_neq. lia.
    - destruct (decide (keySet = 0)) as [->|Hnz]; [simpl; lia|].
      apply Z.lt_le_trans with 6; [|done].
      apply Z.log2_lt_pow2; lia. }
  assert (Hnn : 0 <= Z.lor keySet (Z.shiftl 1 (code symbol - 97))).
  { apply Z.lor_nonneg. split; [lia|]. apply Z.shiftl_nonneg. lia. }
  split; [done|].
  destruct (Z.lt_ge_cases (Z.lor keySet (Z.shiftl 1 (code symbol - 97))) 64)
    as [Hlt|Hge]; [done|].
  exfalso.
  set (x := Z.lor keySet (Z.shiftl 1 (code symbol - 97))) in *.
  assert (Hlog : 6 <= Z.log2 x) by (apply (Z.log2_le_pow2 x 6); lia).
  pose proof (Z.bit_log2 x ltac:(lia)) as Hb.
  rewrite Hbits in Hb by done. done.
Qed.

Lemma length_allStates (dungeon : Dungeon) :
  length (allStates dungeon) = (64 * cellCount dungeon)%nat.
Proof.
  unfold allStates. rewrite (length_bind_const _ _ 64%nat).
  - rewrite length_allCells. lia.
  - intros v. by rewrite length_fmap, length_seq.
Qed.

Lemma stateInRange_allStates (dungeon : Dungeon) (s : KeyState) :
  stateInRange dungeon s -> s ∈ allStates dungeon.
Proof.
  intros [Hb Hk]. unfold allStates. apply list_elem_of_bind.
  exists (cellOf s). split; [|by apply inBounds_allCells].
  apply list_elem_of_fmap. exists (Z.to_nat (keyMask s)).
  split; [|apply elem_of_seq; lia].
  destruct s as [rs cs ks]. simpl in *. f_equal. lia.
Qed.

Lemma size_keyVisited (dungeon : Dungeon) (start : KeyState) (V : gset KeyState) :
  (forall v, v ∈ V -> v = start \/ stateInRange dungeon v) ->
  (size V <= S (64 * cellCount dungeon))%nat.
Proof.
  intros HV. rewrite <- length_allStates.
  change (S (length (allStates dungeon)))
    with (length (start :: allStates dungeon)).
  etrans; [|apply size_list_to_set_le].
  apply subseteq_size. intros v Hv. apply elem_of_list_to_set.
  destruct (HV v Hv) as [->|Hb]; [by left|].
  right. by apply stateInRange_allStates.
Qed.

Lemma keyInv_init (dungeon : Dungeon) (rw cl : Z) :
  keyInv dungeon (mkKeyState rw cl 0)
         (mkKeyBfs [mkKeyState rw cl 0] {[mkKeyState rw cl 0]} ∅).
Proof.
  split; simpl.
  - set_solver.
  - intros q Hq. set_solver.
  - intros v Hv. left. set_solver.
  - intros v ->%elem_of_singleton. simpl. lia.
  - done.
  - intros v ->%elem_of_singleton. exists [mkKeyState rw cl 0].
    split; [constructor|]. simpl. lia.
  - intros v p. by rewrite lookup_empty.
Qed.

Lemma keyInv_dequeue dungeon start current rest V P :
  keyInv dungeon start (mkKeyBfs (current :: rest) V P) ->
  keyInv dungeon start (mkKeyBfs rest V P) /\ current ∈ V.
Proof.
  intros [H1 H2 H3 H4 H5 H6 H7]; simpl in *. split.
  - split; simpl; try done. intros q Hq. apply H2. by right.
  - apply H2. by left.
Qed.

Lemma isValidPosition_inBounds (dungeon : Dungeon) (rw cl : Z) :
  isValidPosition dungeon rw cl = true -> inBounds dungeon rw cl = true.
Proof.
  unfold isValidPosition, inBounds. by destruct (_ || _).
Qed.

Lemma visitDirection_inv dungeon start current st (d : Z * Z) :
  keyInv dungeon start st ->
  current ∈ keyVisited st ->
  d ∈ directions ->
  keyInv dungeon start (visitDirection dungeon current st d)
  /\ current ∈ keyVisited (visitDirection dungeon current st d)
  /\ (keyMeasure dungeon (visitDirection dungeon current st d)
      <= keyMeasure dungeon st)%nat.
Proof.
  intros Hinv Hcur Hd. unfold visitDirection.
  destruct (nextState dungeon current d) as [newState|] eqn:Hnext; [|done].
  case_bool_decide as Hfresh; [|done].
  destruct Hinv as [H1 H2 H3 H4 H5 H6 H7].
  assert (Hstep : kstep dungeon current newState) by (by exists d).
  apply nextState_inv in Hnext as (_ & _ & Hvalid & _ & Hmask).
  assert (Hrange : stateInRange dungeon newState).
  { split; [by apply isValidPosition_inBounds|].
    rewrite Hmask. apply pickUp_range. by apply H4. }
  assert (HP : keyParents st !! newState = None) by (by apply H5).
  assert (Hinv' : keyInv dungeon start
                    (mkKeyBfs (keyQueue st ++ [newState])
                              ({[newState]} ∪ keyVisited st)
                              (<[newState := current]> (keyParents st)))).
  { split; simpl.
    - set_solver.
    - intros q [Hq|Hq%list_elem_of_singleton]%elem_of_app; [|set_solver].
      apply elem_of_union_r. by apply H2.
    - intros v [->%elem_of_singleton|Hv]%elem_of_union; [by right|by apply H3].
    - intros v [->%elem_of_singleton|Hv]%elem_of_union;
        [apply Hrange|by apply H4].
    - intros v Hv. rewrite lookup_insert_ne by set_solver. apply H5. set_solver.
    - intros v [->%elem_of_singleton|Hv]%elem_of_union.
      + destruct (H6 current Hcur) as (l & Hc & Hlen).
        exists (l ++ [newState]). split.
        * apply chain_link with current.
          -- intros ->. done.
          -- apply lookup_insert_eq.
          -- by apply chain_insert.
        * rewrite length_app, map_size_insert_None by done. simpl. lia.
      + destruct (H6 v Hv) as (l & Hc & Hlen).
        exists l. split; [by apply chain_insert|].
        rewrite map_size_insert_None by done. lia.
    - intros v p. destruct (decide (newState = v)) as [<-|Hne].
      + rewrite lookup_insert_eq. by intros [= <-].
      + rewrite lookup_insert_ne by done. apply H7. }
  split; [done|]. split; [simpl; set_solver|].
  unfold keyMeasure. simpl.
  pose proof (size_keyVisited dungeon start _ (kinv_bounds _ _ _ Hinv')) as Hsz.
  simpl in Hsz.
  rewrite size_union, size_singleton in * by set_solver.
  rewrite length_app. simpl. lia.
Qed.

Lemma foldl_visitDirection_inv dungeon start current ds :
  forall st,
    keyInv dungeon start st ->
    current ∈ keyVisited st ->
    (forall d, d ∈ ds -> d ∈ directions) ->
    keyInv dungeon start (foldl (visitDirection dungeon current) st ds)
    /\ (keyMeasure dungeon (foldl (visitDirection dungeon current) st ds)
        <= keyMeasure dungeon st)%nat.
Proof.
  induction ds as [|d ds IH]; intros st Hinv Hcur Hds; simpl; [done|].
  destruct (visitDirection_inv dungeon start current st d Hinv Hcur)
    as (Hinv' & Hcur' & Hm); [apply Hds; by left|].
  destruct (IH _ Hinv' Hcur') as [Hinv'' Hm'].
  - intros m Hm0. apply Hds. by right.
  - split; [done|lia].
Qed.

(** ** The key-aware search returns, and what it returns *)

Lemma keyLoop_returns dungeon start exit fuel :
  forall st,
    keyInv dungeon start st ->
    (keyMeasure dungeon st < fuel)%nat ->
    exists path, keyLoop fuel dungeon start exit st = Some path
                 /\ (path = [] \/ keyRoute dungeon start path).
Proof.
  induction fuel as [|fuel IH]; intros st Hinv Hfuel; [lia|].
  destruct st as [queue V P]. simpl.
  destruct queue as [|current rest]; [exists []; auto|].
  destruct (keyInv_dequeue _ _ _ _ _ _ Hinv) as [Hinv' Hcur].
  destruct (goalTest exit current) eqn:Hgoal.
  - apply goalTest_literal in Hgoal as [Hr Hc].
    destruct (kinv_chain _ _ _ Hinv current Hcur) as (l & Hch & Hlen).
    simpl in *.
    exists (cellOf <$> l). unfold reconstructKeyPath.
    rewrite (reconstructKeyLoop_chain P start current l Hch) by done.
    simpl. rewrite app_nil_r. split; [done|]. right.
    destruct (chain_ends _ _ _ _ Hch) as [Hh Hl].
    exists l, current. repeat split; try done.
    eapply chain_linked; [|done]. apply (kinv_edge _ _ _ Hinv).
  - destruct (foldl_visitDirection_inv dungeon start current directions
                _ Hinv' Hcur) as [Hinv'' Hm]; [done|].
    apply IH; [done|].
    unfold keyMeasure in *. simpl in *. lia.
Qed.

(** The key-aware search returns on every grid; a non-empty result is a walk
    from the start, without keys, to the cell (5, 8). *)
Theorem bfsPathKeys_returns_route (dungeon : Dungeon) :
  exists path,
    bfsPathKeys dungeon = Some path
    /\ (path = []
        \/ keyRoute dungeon
                    (mkKeyState (r (findPosition dungeon "S"%char))
                                (c (findPosition dungeon "S"%char)) 0)
                    path).
Proof.
  unfold bfsPathKeys. cbv zeta.
  destruct (_ || _); [exists []; auto|].
  apply keyLoop_returns; [apply keyInv_init|].
  unfold keyMeasure, keyFuel. cbn [keyVisited keyQueue length].
  rewrite size_singleton. lia.
Qed.

(** A walk of the search stays within bounds after its first state. *)
Lemma keyRoute_last_inBounds dungeon start path :
  keyRoute dungeon start path ->
  (row start = 5 /\ col start = 8) \/ inBounds dungeon 5 8 = true.
Proof.
  intros (states & goal & _ & Hh & Hl & Hlink & Hr & Hc).
  destruct states as [|s states] using rev_ind; [done|].
  rewrite last_snoc in Hl. injection Hl as ->.
  destruct states as [|x states].
  - simpl in Hh. injection Hh as ->. by left.
  - right. apply linked_snoc_inv in Hlink as [_ Hstep].
    destruct (last (x :: states)) as [u|] eqn:Hu; [|by apply last_None in Hu].
    destruct (Hstep u eq_refl) as (d & _ & Hn).
    apply nextState_inv in Hn as (_ & _ & Hv & _).
    rewrite Hr, Hc in Hv. by apply isValidPosition_inBounds.
Qed.

(** On a grid of at most five rows the key-aware search returns the empty
    sequence, wherever the exit is. *)
Theorem bfsPathKeys_small_grid (dungeon : Dungeon) :
  rows dungeon <= 5 -> bfsPathKeys dungeon = Some [].
Proof.
  intros Hrows.
  destruct (bfsPathKeys_returns_route dungeon) as (path & Hrun & [->|Hroute]);
    [done|].
  exfalso. apply keyRoute_last_inBounds in Hroute as [[Hr _]|Hb].
  - simpl in Hr.
    destruct (findPosition_spec dungeon "S"%char) as [[Hs _]|(_ & _ & Hsym)].
    + rewrite Hs in Hr. done.
    + rewrite Hr in Hsym. unfold symbolAt in Hsym.
      destruct (_ || _); [done|].
      destruct (dungeon !! Z.to_nat 5) eqn:Hl; [|done].
      apply lookup_lt_Some in Hl. unfold rows in Hrows. lia.
  - apply inBounds_spec in Hb. lia.
Qed.

(** ** Where the two engines part *)

(** X14: the plain half of the path properties: a non-empty result of the plain
    search starts on the located start, ends on the located exit, and moves
    by one step up, down, left or right at a time. *)
Theorem bfsPath_path_ok (dungeon : Dungeon) (path : list Cell) :
  bfsPath dungeon = Some path -> path <> [] ->
  head path = Some (findPosition dungeon "S"%char)
  /\ last path = Some (findPosition dungeon "E"%char)
  /\ linked adjacent4 path.
Proof.
  intros Hrun Hne.
  destruct (bfsPath_returns_route dungeon) as (path' & Hrun' & Hroute).
  rewrite Hrun in Hrun'. injection Hrun' as <-.
  destruct Hroute as [->|Hroute]; [done|].
  pose proof (plainRoute_adjacent _ _ _ _ Hroute) as [Hadj _].
  by destruct Hroute as (Hh & Hl & _).
Qed.

(** On a grid of at most five rows with a route from the start to the exit,
    the plain search returns a path and the key-aware search returns none. *)
Theorem engines_disagree (dungeon : Dungeon) (route : list Cell) :
  rows dungeon <= 5 ->
  r (findPosition dungeon "S"%char) <> -1 ->
  r (findPosition dungeon "E"%char) <> -1 ->
  plainRoute dungeon (findPosition dungeon "S"%char)
             (findPosition dungeon "E"%char) route ->
  exists path,
    bfsPath dungeon = Some path /\ path <> []
    /\ bfsPathKeys dungeon = Some [].
Proof.
  intros Hrows HS HE Hroute.
  destruct (bfsPath_returns_route dungeon) as (path & Hrun & _).
  exists path. split; [done|]. split.
  - by destruct (bfsPath_shortest dungeon path route Hrun HS HE Hroute).
  - by apply bfsPathKeys_small_grid.
Qed.

(** ** The engines on the fixtures *)

(** The two cells of [corridor] are a route of the plain search, so the two
    engines part on it. *)
Example corridor_route :
  plainRoute corridor (findPosition corridor "S"%char)
             (findPosition corridor "E"%char) [mkCell 0 0; mkCell 0 1].
Proof.
  split; [reflexivity|]. split; [reflexivity|].
  intros [|[|i]] a b Ha Hb; simpl in *; try done.
  injection Ha as <-. injection Hb as <-.
  unfold step. vm_compute. apply list_elem_of_here.
Qed.

Example corridor_engines_disagree :
  exists path, bfsPath corridor = Some path /\ path <> []
               /\ bfsPathKeys corridor = Some [].
Proof.
  apply (engines_disagree corridor [mkCell 0 0; mkCell 0 1]).
  - vm_compute. by intros [=].
  - by vm_compute.
  - by vm_compute.
  - apply corridor_route.
Qed.

(** With the exit on the cell (5, 8) the key-aware search fetches the key,
    crosses the door and ends on the exit; the plain search finds no way. *)
Example vault_paths :
  findPosition vault "E"%char = mkCell 5 8
  /\ bfsPath vault = Some []
  /\ bfsPathKeys vault
     = Some [mkCell 5 0; mkCell 4 0; mkCell 4 1; mkCell 4 2; mkCell 4 3;
             mkCell 4 4; mkCell 4 5; mkCell 5 5; mkCell 5 6; mkCell 5 7;
             mkCell 5 8].
Proof. repeat split; vm_compute; reflexivity. Qed.

(** C1: on the grid ["SE"] the search dequeues the state standing on the
    located exit (0, 1), the goal test rejects it, and the search ends with
    the empty result; on [lastRow] the goal test accepts the cell (5, 8),
    which is not the located exit (5, 5). *)
Theorem goalTest_misses_located_exit :
  findPosition corridor "S"%char = mkCell 0 0
  /\ findPosition corridor "E"%char = mkCell 0 1
  /\ nextState corridor (mkKeyState 0 0 0) (0, 1) = Some (mkKeyState 0 1 0)
  /\ goalTest (findPosition corridor "E"%char) (mkKeyState 0 1 0) = false
  /\ bfsPathKeys corridor = Some []
  /\ findPosition lastRow "E"%char = mkCell 5 5
  /\ goalTest (findPosition lastRow "E"%char) (mkKeyState 5 8 0) = true.
Proof. repeat split; vm_compute; reflexivity. Qed.

(** C2: on the grid ["SaAE"] the plain search returns the empty sequence, and
    so does the key-aware search, which never meets its goal cell. *)
Theorem SaAE_both_empty :
  bfsPath keyAndDoor = Some []
  /\ bfsPathKeys keyAndDoor = Some []
  /\ bfsPathKeys keyAndDoor
     <> Some [mkCell 0 0; mkCell 0 1; mkCell 0 2; mkCell 0 3].
Proof. repeat split; try (vm_compute; reflexivity). by vm_compute. Qed.

(** C3: the grid ["SE"] has no door and its exit is next to the start; the
    plain search returns two cells and the key-aware search none. *)
Theorem door_free_lengths_differ :
  doorFree corridor = true
  /\ bfsPath corridor = Some [mkCell 0 0; mkCell 0 1]
  /\ bfsPathKeys corridor = Some []
  /\ (List.length <$> bfsPath corridor) <> (List.length <$> bfsPathKeys corridor).
Proof. repeat split; try (vm_compute; reflexivity). by vm_compute. Qed.

(** C4: on [lastRow] the key-aware search returns a path that ends on the
    cell (5, 8), two steps right of the start, while the exit is the cell
    (5, 5) on its left. *)
Theorem keyPath_ends_off_exit :
  findPosition lastRow "S"%char = mkCell 5 6
  /\ findPosition lastRow "E"%char = mkCell 5 5
  /\ bfsPathKeys lastRow = Some [mkCell 5 6; mkCell 5 7; mkCell 5 8]
  /\ (bfsPathKeys lastRow ≫= last) <> Some (findPosition lastRow "E"%char).
Proof. repeat split; try (vm_compute; reflexivity). by vm_compute. Qed.

(** C5: on [hall] the exit is one step from the start, and the key-aware
    search returns a path of thirteen steps. *)
Theorem keyPath_not_minimal :
  findPosition hall "S"%char = mkCell 0 0
  /\ findPosition hall "E"%char = mkCell 0 1
  /\ walk hall (mkKeyState 0 0 0) [mkKeyState 0 1 0] (mkKeyState 0 1 0)
  /\ (List.length <$> bfsPathKeys hall) = Some 14%nat.
Proof.
  repeat split; try (vm_compute; reflexivity).
  apply (walk_step hall _ [] (mkKeyState 0 0 0)); [apply walk_here|].
  exists (0, 1). split; [|reflexivity].
  do 3 apply list_elem_of_further. apply list_elem_of_here.
Qed.

(** * The helpers on their own *)

(** ** findPosition returns the first occurrence *)

Lemma findInRow_first (line : string) (target : ascii) (cl k : Z) :
  findInRow line target cl = Some k ->
  forall j : nat, Z.of_nat j < k - cl -> String.get j line <> Some target.
Proof.
  revert cl. induction line as [|ch rest IH]; intros cl; simpl; [done|].
  destruct (Ascii.eqb_spec ch target) as [->|Hne].
  - intros [= <-] j Hj. lia.
  - intros Hf [|j] Hj; [congruence|].
    apply (IH _ Hf). lia.
Qed.

Lemma findFrom_first (dungeon : Dungeon) (target : ascii) (row0 a b : Z) :
  findFrom dungeon target row0 = mkCell a b -> 0 <= row0 -> row0 <= a ->
  (forall (i : nat) line,
      Z.of_nat i < a - row0 -> dungeon !! i = Some line ->
      forall j, String.get j line <> Some target)
  /\ (forall line,
         dungeon !! Z.to_nat (a - row0) = Some line ->
         forall j : nat, Z.of_nat j < b -> String.get j line <> Some target).
Proof.
  revert row0. induction dungeon as [|line rest IH]; intros row0; simpl.
  - intros [= <- <-] H0 Hle. split; [by intros i line|done].
  - destruct (findInRow line target 0) as [k|] eqn:Hrow.
    + intros [= <- <-] _ _. rewrite Z.sub_diag. split; [intros i ln Hi; lia|].
      simpl. intros ln [= <-] j Hj.
      apply (findInRow_first _ _ _ _ Hrow). lia.
    + intros Hf H0 Hle.
      destruct (findFrom_spec rest target (row0 + 1))
        as [[Hs _]|(a' & b' & ln & Hf' & Ha' & _)].
      * rewrite Hs in Hf. injection Hf as <- <-. lia.
      * rewrite Hf' in Hf. injection Hf as <- <-.
        destruct (IH (row0 + 1) Hf' ltac:(lia) Ha') as [IH1 IH2]. split.
        -- intros [|i] ln0 Hi; simpl.
           ++ intros [= <-]. by apply findInRow_None with (cl := 0).
           ++ apply IH1. lia.
        -- replace (Z.to_nat (a' - row0)) with (S (Z.to_nat (a' - (row0 + 1))))
             by lia.
           simpl. apply IH2.
Qed.

(** X1: [findPosition] returns the sentinel when no cell holds the target, and
    otherwise the first cell, in row-major order, that holds it. *)
Theorem findPosition_first (dungeon : Dungeon) (target : ascii) :
  (findPosition dungeon target = mkCell (-1) (-1) /\ missing dungeon target)
  \/ (symbolAt dungeon (r (findPosition dungeon target))
                (c (findPosition dungeon target)) = Some target
      /\ forall rw cl,
          symbolAt dungeon rw cl = Some target ->
          r (findPosition dungeon target) < rw
          \/ (r (findPosition dungeon target) = rw
              /\ c (findPosition dungeon target) <= cl)).
Proof.
  destruct (findPosition_spec dungeon target) as [Hs|(Hr & Hc & Hsym)];
    [by left|].
  right. split; [done|].
  unfold findPosition in *.
  destruct (findFrom dungeon target 0) as [a b] eqn:Hf. simpl in *.
  destruct (findFrom_first dungeon target 0 a b Hf ltac:(lia) Hr) as [H1 H2].
  intros rw cl Hat. unfold symbolAt in Hat.
  destruct (Z.ltb_spec rw 0), (Z.ltb_spec cl 0); simpl in Hat; try done.
  destruct (dungeon !! Z.to_nat rw) as [ln|] eqn:Hl; [|done].
  destruct (Z.lt_trichotomy a rw) as [Hlt|[Heq|Hgt]]; [by left| |].
  - right. split; [done|]. subst rw.
    destruct (Z.le_gt_cases b cl) as [Hle|Hgt]; [done|].
    rewrite Z.sub_0_r in H2. destruct (H2 ln Hl (Z.to_nat cl)); [lia|done].
  - destruct (H1 (Z.to_nat rw) ln) with (j := Z.to_nat cl); [lia|done|done].
Qed.

(** ** isValidPosition and isPassable *)

(** X2: outside the grid both tests answer no; inside, [isValidPosition] rejects
    the wall only, and [isPassable] rejects in addition the letters of
    ['A'..'F'] other than ['E']. *)
Theorem isValidPosition_vs_isPassable (dungeon : Dungeon) (rw cl : Z) :
  (isValidPosition dungeon rw cl = true
   <-> 0 <= rw < rows dungeon /\ 0 <= cl < cols dungeon
       /\ at_ dungeon rw cl <> "#"%char)
  /\ isPassable dungeon rw cl
     = isValidPosition dungeon rw cl
       && negb ((code (at_ dungeon rw cl) >=? code "A"%char)
                && (code (at_ dungeon rw cl) <=? code "F"%char)
                && negb (Ascii.eqb (at_ dungeon rw cl) "E"%char)).
Proof.
  split.
  - unfold isValidPosition.
    destruct (_ || _) eqn:Hb.
    + split; [done|]. intros (Hr & Hc & _).
      assert (Hin : inBounds dungeon rw cl = true) by (by apply inBounds_spec).
      unfold inBounds in Hin. by rewrite Hb in Hin.
    + assert (Hin : inBounds dungeon rw cl = true)
        by (unfold inBounds; by rewrite Hb).
      apply inBounds_spec in Hin as [Hr Hc].
      destruct (Ascii.eqb_spec (at_ dungeon rw cl) "#"); simpl.
      * split; [done|]. by intros (_ & _ & ?).
      * done.
  - unfold isPassable, isValidPosition.
    destruct (_ || _); [done|]. cbv zeta.
    destruct (Ascii.eqb (at_ dungeon rw cl) "#"); [done|]. simpl.
    by destruct (_ && _).
Qed.

(** ** getNeighbors *)

(** X3: [getNeighbors] lists exactly the passable cells one step away from
    [current], each once, so at most four. *)
Theorem getNeighbors_exact (dungeon : Dungeon) (current : Cell) :
  (forall v, v ∈ getNeighbors dungeon current
             <-> adjacent4 current v /\ isPassable dungeon (r v) (c v) = true)
  /\ NoDup (getNeighbors dungeon current)
  /\ (length (getNeighbors dungeon current) <= 4)%nat.
Proof.
  split; [|split].
  - intros v. rewrite getNeighbors_spec. split.
    + intros (Hp & d & Hd & ->). split; [|done].
      apply directions_spec in Hd. unfold adjacent4. simpl.
      destruct Hd as [-> | [-> | [-> | ->]]]; simpl; lia.
    + intros [Hadj Hp]. split; [done|].
      destruct v as [rv cv], current as [rc cc]. unfold adjacent4 in Hadj.
      simpl in *.
      destruct Hadj as [[-> ->]|[[-> ->]|[[-> ->]|[-> ->]]]].
      * exists (-1, 0). split; [apply directions_spec; auto|]. simpl.
        f_equal; lia.
      * exists (1, 0). split; [apply directions_spec; auto|]. simpl.
        f_equal; lia.
      * exists (0, -1). split; [apply directions_spec; auto|]. simpl.
        f_equal; lia.
      * exists (0, 1). split; [apply directions_spec; auto|]. simpl.
        f_equal; lia.
  - unfold getNeighbors, directions. simpl.
    repeat (destruct (isPassable _ _ _)); simpl;
      repeat (apply NoDup_cons; split;
              [rewrite ?elem_of_cons, elem_of_nil;
               intros Hin; repeat (destruct Hin as [Hin|Hin]);
               try done; injection Hin; lia|]);
      apply NoDup_nil_2.
  - unfold getNeighbors, directions. simpl.
    repeat (destruct (isPassable _ _ _)); simpl; lia.
Qed.

(** ** Keys open their doors *)

Lemma collectKey_other (symbol : ascii) (keySet : Z) :
  ~ isKeyLetter symbol -> collectKey symbol keySet = keySet.
Proof.
  unfold collectKey, isKeyLetter. intros Hn. zcases; try done. lia.
Qed.

Lemma matchingKey_iff (door key : ascii) :
  isDoorLetter door -> (key = matchingKey door <-> code key = code door + 32).
Proof.
  intros Hd. rewrite <- (code_matchingKey door Hd). split; [by intros ->|].
  apply code_inj.
Qed.

(** X4: after [collectKey key], a door of ['A'..'F'] can be passed exactly if it
    could be passed before or [key] is the matching lowercase letter. *)
Theorem canPassDoor_after_collectKey (door key : ascii) (keySet : Z) :
  isDoorLetter door ->
  canPassDoor door (collectKey key keySet)
  = canPassDoor door keySet || bool_decide (key = matchingKey door).
Proof.
  intros Hd. rewrite !canPassDoor_testbit by done.
  pose proof (matchingKey_iff door key Hd) as Hiff.
  unfold isDoorLetter in Hd. revert Hd Hiff. codes. intros Hd Hiff.
  destruct (decide (isKeyLetter key)) as [Hk|Hk].
  - rewrite testbit_collectKey by (done || lia). f_equal.
    unfold keyBitOf. codes. apply bool_decide_ext. rewrite Hiff. lia.
  - rewrite collectKey_other by done.
    rewrite bool_decide_eq_false_2; [by rewrite orb_false_r|].
    rewrite Hiff. intros Hc. apply Hk. unfold isKeyLetter. codes. lia.
Qed.

Lemma canPassDoor_after_collectKey_witness :
  isDoorLetter "B"%char
  /\ canPassDoor "B"%char (collectKey "b"%char 1)
     = canPassDoor "B"%char 1 || bool_decide ("b"%char = matchingKey "B"%char).
Proof.
  assert (Hd : isDoorLetter "B"%char) by (unfold isDoorLetter; vm_compute; done).
  split; [exact Hd|]. exact (canPassDoor_after_collectKey "B"%char "b"%char 1 Hd).
Defined.

(** X5: the order in which two symbols are collected does not matter. *)
Theorem collectKey_comm (key1 key2 : ascii) (keySet : Z) :
  collectKey key1 (collectKey key2 keySet)
  = collectKey key2 (collectKey key1 keySet).
Proof.
  unfold collectKey. zcases; try done.
  rewrite <- !Z.lor_assoc. f_equal. apply Z.lor_comm.
Qed.

(** X6: a key set of six bits stays one: [collectKey] never sets a bit above
    bit 5 and never makes the mask negative. *)
Theorem collectKey_six_bits (symbol : ascii) (keySet : Z) :
  0 <= keySet < 64 -> 0 <= collectKey symbol keySet < 64.
Proof.
  intros Hk. destruct (decide (isKeyLetter symbol)) as [Hs|Hs].
  - pose proof (pickUp_range symbol keySet Hk) as Hp.
    unfold pickUp in Hp. unfold isKeyLetter in Hs.
    assert (Ht : (code symbol >=? code "a"%char) && (code symbol <=? code "f"%char)
                 = true) by (zcases; lia).
    by rewrite Ht in Hp.
  - by rewrite collectKey_other.
Qed.

Lemma collectKey_six_bits_witness :
  0 <= 33 < 64 /\ 0 <= collectKey "c"%char 33 < 64.
Proof.
  assert (H : 0 <= 33 < 64) by lia.
  split; [exact H|]. exact (collectKey_six_bits "c"%char 33 H).
Defined.

(** ** reconstructPath on any parent map *)

Lemma reconstructLoop_sound (parents : gmap Cell Cell) (start : Cell) fuel :
  forall current acc path,
    reconstructLoop fuel parents start current acc = Some path ->
    path = []
    \/ exists l, chain parents start current l /\ path = l ++ rev acc
                 /\ (length l <= fuel)%nat.
Proof.
  induction fuel as [|fuel IH]; intros current acc path; simpl; [done|].
  rewrite Cell_eqb. case_bool_decide as Heq; simpl.
  - intros [= <-]. right. exists [start]. subst.
    split; [constructor|]. rewrite rev_app_distr. simpl. split; [done|lia].
  - destruct (parents !! current) as [p|] eqn:Hp; [|intros [= <-]; by left].
    intros Hrun. destruct (IH _ _ _ Hrun) as [->|(l & Hc & -> & Hlen)];
      [by left|].
    right. exists (l ++ [current]). split; [by apply chain_link with p|].
    rewrite rev_app_distr, <- app_assoc, length_app. simpl. split; [done|lia].
Qed.

(** X7: whatever the parent map, a non-empty result of [reconstructPath] starts
    with [start], ends with [goal], and each of its cells is the recorded
    parent of the next. *)
Theorem reconstructPath_sound (fuel : nat) (parents : gmap Cell Cell)
        (start goal : Cell) (path : list Cell) :
  reconstructPath fuel parents start goal = Some path -> path <> [] ->
  head path = Some start /\ last path = Some goal
  /\ linked (fun a b => parents !! b = Some a) path
  /\ (length path <= fuel)%nat.
Proof.
  unfold reconstructPath. intros Hrun Hne.
  destruct (reconstructLoop_sound _ _ _ _ _ _ Hrun) as [->|(l & Hc & -> & Hlen)];
    [done|].
  simpl. rewrite app_nil_r.
  destruct (chain_ends _ _ _ _ Hc) as [Hh Hl].
  split; [done|]. split; [done|]. split; [|done].
  by apply (chain_linked (fun a b => parents !! b = Some a) parents start goal).
Qed.

Lemma reconstructPath_sound_witness :
  reconstructPath 2 {[mkCell 0 1 := mkCell 0 0]} (mkCell 0 0) (mkCell 0 1)
  = Some [mkCell 0 0; mkCell 0 1]
  /\ last [mkCell 0 0; mkCell 0 1] = Some (mkCell 0 1).
Proof.
  assert (Hrun : reconstructPath 2 {[mkCell 0 1 := mkCell 0 0]}
                                 (mkCell 0 0) (mkCell 0 1)
                 = Some [mkCell 0 0; mkCell 0 1]) by reflexivity.
  split; [exact Hrun|].
  assert (Hne : [mkCell 0 0; mkCell 0 1] <> []) by discriminate.
  exact (proj1 (proj2 (reconstructPath_sound _ _ _ _ _ Hrun Hne))).
Defined.

(** X8: when the parent links lead from [goal] to [start], [reconstructPath]
    returns the cells met, from [start] to [goal], provided it is given one
    step per cell. *)
Theorem reconstructPath_follows_chain (fuel : nat) (parents : gmap Cell Cell)
        (start goal : Cell) (l : list Cell) :
  chain parents start goal l -> (length l <= fuel)%nat ->
  reconstructPath fuel parents start goal = Some l.
Proof.
  intros Hc Hlen. unfold reconstructPath.
  rewrite (reconstructLoop_chain parents start goal l Hc) by done.
  simpl. by rewrite app_nil_r.
Qed.

Lemma reconstructPath_follows_chain_witness :
  chain {[mkCell 0 1 := mkCell 0 0]} (mkCell 0 0) (mkCell 0 1)
        ([mkCell 0 0] ++ [mkCell 0 1])
  /\ reconstructPath 2 {[mkCell 0 1 := mkCell 0 0]} (mkCell 0 0) (mkCell 0 1)
     = Some ([mkCell 0 0] ++ [mkCell 0 1]).
Proof.
  assert (Hc : chain {[mkCell 0 1 := mkCell 0 0]} (mkCell 0 0) (mkCell 0 1)
                     ([mkCell 0 0] ++ [mkCell 0 1])).
  { apply chain_link with (mkCell 0 0); [discriminate|reflexivity|constructor]. }
  split; [exact Hc|].
  apply (reconstructPath_follows_chain 2 _ _ _ _ Hc). simpl. lia.
Defined.

(** X9: when [goal] lies in a set of cells that is closed under the parent links
    and does not hold [start], the backward walk never ends: no amount of
    fuel gives a result. *)
Theorem reconstructPath_never_returns (parents : gmap Cell Cell)
        (start goal : Cell) (X : Cell -> Prop) :
  X goal -> ~ X start ->
  (forall x, X x -> exists p, parents !! x = Some p /\ X p) ->
  forall fuel, reconstructPath fuel parents start goal = None.
Proof.
  intros Hg Hs Hclosed fuel. unfold reconstructPath. generalize (@nil Cell).
  revert goal Hg. induction fuel as [|fuel IH]; intros goal Hg acc; [done|].
  simpl. rewrite Cell_eqb, bool_decide_eq_false_2 by (by intros ->).
  simpl. destruct (Hclosed goal Hg) as (p & -> & Hp). by apply IH.
Qed.

Lemma reconstructPath_never_returns_witness :
  reconstructPath 9 {[mkCell 0 1 := mkCell 0 2; mkCell 0 2 := mkCell 0 1]}
                  (mkCell 0 0) (mkCell 0 1) = None.
Proof.
  apply (reconstructPath_never_returns
           {[mkCell 0 1 := mkCell 0 2; mkCell 0 2 := mkCell 0 1]}
           (mkCell 0 0) (mkCell 0 1)
           (fun x => x = mkCell 0 1 \/ x = mkCell 0 2)).
  - by left.
  - intros [H|H]; discriminate H.
  - intros x [->| ->].
    + exists (mkCell 0 2). split; [reflexivity|by right].
    + exists (mkCell 0 1). split; [reflexivity|by left].
Defined.

(** ** reconstructKeyPath on any parent map *)

Lemma reconstructKeyLoop_sound (parents : gmap KeyState KeyState)
      (start : KeyState) fuel :
  forall current acc path,
    reconstructKeyLoop fuel parents start current acc = Some path ->
    path = []
    \/ exists l, chain parents start current l
                 /\ path = (cellOf <$> l) ++ rev acc
                 /\ (length l <= fuel)%nat.
Proof.
  induction fuel as [|fuel IH]; intros current acc path; simpl; [done|].
  rewrite KeyState_eqb. case_bool_decide as Heq; simpl.
  - intros [= <-]. right. exists [start]. subst.
    split; [constructor|]. rewrite rev_app_distr. simpl. split; [done|lia].
  - destruct (parents !! current) as [p|] eqn:Hp; [|intros [= <-]; by left].
    intros Hrun. destruct (IH _ _ _ Hrun) as [->|(l & Hc & -> & Hlen)];
      [by left|].
    right. exists (l ++ [current]). split; [by apply chain_link with p|].
    rewrite rev_app_distr, fmap_app, <- app_assoc, length_app. simpl.
    split; [done|lia].
Qed.

(** X10: a non-empty result of [reconstructKeyPath] lists the cells of states that
    lead from [start] to [goal], each the recorded parent of the next; the
    walk stops on the start state only, not on its cell with other keys. *)
Theorem reconstructKeyPath_sound (fuel : nat) (parents : gmap KeyState KeyState)
        (start goal : KeyState) (path : list Cell) :
  reconstructKeyPath fuel parents start goal = Some path -> path <> [] ->
  exists states,
    path = cellOf <$> states
    /\ head states = Some start /\ last states = Some goal
    /\ linked (fun a b => parents !! b = Some a) states
    /\ (length states <= fuel)%nat.
Proof.
  unfold reconstructKeyPath. intros Hrun Hne.
  destruct (reconstructKeyLoop_sound _ _ _ _ _ _ Hrun)
    as [->|(l & Hc & -> & Hlen)]; [done|].
  exists l. simpl. rewrite app_nil_r.
  destruct (chain_ends _ _ _ _ Hc) as [Hh Hl].
  repeat split; try done.
  by apply (chain_linked (fun a b => parents !! b = Some a) parents start goal).
Qed.

Lemma reconstructKeyPath_sound_witness :
  reconstructKeyPath 3 {[mkKeyState 0 0 1 := mkKeyState 0 1 1;
                         mkKeyState 0 1 1 := mkKeyState 0 0 0]}
                     (mkKeyState 0 0 0) (mkKeyState 0 0 1)
  = Some [mkCell 0 0; mkCell 0 1; mkCell 0 0]
  /\ exists states,
      [mkCell 0 0; mkCell 0 1; mkCell 0 0] = cellOf <$> states
      /\ head states = Some (mkKeyState 0 0 0)
      /\ last states = Some (mkKeyState 0 0 1).
Proof.
  assert (Hrun : reconstructKeyPath 3
                   {[mkKeyState 0 0 1 := mkKeyState 0 1 1;
                     mkKeyState 0 1 1 := mkKeyState 0 0 0]}
                   (mkKeyState 0 0 0) (mkKeyState 0 0 1)
                 = Some [mkCell 0 0; mkCell 0 1; mkCell 0 0]) by reflexivity.
  split; [exact Hrun|].
  assert (Hne : [mkCell 0 0; mkCell 0 1; mkCell 0 0] <> []) by discriminate.
  destruct (reconstructKeyPath_sound _ _ _ _ _ Hrun Hne)
    as (states & H1 & H2 & H3 & _).
  exists states. by repeat split.
Defined.

(** ** KeyStateHash *)

Lemma testbit_small (y n m : Z) :
  0 <= y < 2 ^ n -> n <= m -> Z.testbit y m = false.
Proof.
  intros Hy Hm. destruct (decide (y = 0)) as [->|Hnz]; [apply Z.bits_0|].
  assert (0 <= n).
  { destruct (Z.lt_ge_cases n 0) as [Hn|]; [|done].
    rewrite Z.pow_neg_r in Hy by done. lia. }
  apply Z.bits_above_log2; [lia|].
  apply Z.lt_le_trans with n; [|done]. apply Z.log2_lt_pow2; lia.
Qed.

Lemma lor_shifted (x y n : Z) :
  0 <= n -> 0 <= y < 2 ^ n -> Z.lor (x * 2 ^ n) y = x * 2 ^ n + y.
Proof.
  intros Hn Hy. pose proof (Z.add_lor_land (x * 2 ^ n) y) as Hadd.
  assert (Hland : Z.land (x * 2 ^ n) y = 0); [|rewrite Hland in Hadd; lia].
  apply Z.bits_inj'. intros m Hm. rewrite Z.land_spec, Z.bits_0.
  destruct (Z.lt_ge_cases m n) as [Hlt|Hge].
  - by rewrite Z.mul_pow2_bits_low.
  - rewrite (testbit_small y n m) by done. apply andb_false_r.
Qed.

(** On a state whose row and column are below 256 and whose key mask is not
    negative and below 2^48, the hash is the three fields side by side. *)
Lemma KeyStateHash_value (s : KeyState) :
  0 <= row s < 256 -> 0 <= col s < 256 -> 0 <= keyMask s < 2 ^ 48 ->
  KeyStateHash s = keyMask s * 65536 + row s * 256 + col s.
Proof.
  intros Hr Hc Hk. unfold KeyStateHash, toSizeT, shlSizeT.
  rewrite !(Z.mod_small (keyMask s)), !(Z.mod_small (row s)),
    !(Z.mod_small (col s)) by lia.
  rewrite !Z.shiftl_mul_pow2 by lia.
  rewrite !Z.mod_small by lia.
  rewrite (lor_shifted (keyMask s) (row s * 2 ^ 8) 16) by lia.
  replace (keyMask s * 2 ^ 16 + row s * 2 ^ 8)
    with ((keyMask s * 256 + row s) * 2 ^ 8) by lia.
  rewrite (lor_shifted _ (col s) 8) by lia. lia.
Qed.

(** X11: two states whose rows and columns are below 256 and whose key masks
    are not negative and below 2^48 have the same hash only if they are the
    same state. *)
Theorem KeyStateHash_inj (s1 s2 : KeyState) :
  0 <= row s1 < 256 -> 0 <= col s1 < 256 -> 0 <= keyMask s1 < 2 ^ 48 ->
  0 <= row s2 < 256 -> 0 <= col s2 < 256 -> 0 <= keyMask s2 < 2 ^ 48 ->
  KeyStateHash s1 = KeyStateHash s2 -> s1 = s2.
Proof.
  intros Hr1 Hc1 Hk1 Hr2 Hc2 Hk2.
  rewrite !KeyStateHash_value by done.
  destruct s1 as [r1 c1 k1], s2 as [r2 c2 k2]. simpl in *.
  intros Heq. f_equal; lia.
Qed.

Lemma KeyStateHash_inj_witness :
  KeyStateHash (mkKeyState 3 7 5) = KeyStateHash (mkKeyState 3 7 5)
  /\ mkKeyState 3 7 5 = mkKeyState 3 7 5.
Proof.
  split; [reflexivity|].
  apply (KeyStateHash_inj (mkKeyState 3 7 5) (mkKeyState 3 7 5));
    simpl; try lia; reflexivity.
Defined.

(** ** keyMaskToString *)

Lemma land_63_range (keyMask : Z) : 0 <= Z.land keyMask 63 < 64.
Proof.
  change 63 with (Z.ones 6). rewrite Z.land_ones by lia.
  apply Z.mod_pos_bound. lia.
Qed.

Lemma testbit_land_63 (keyMask i : Z) :
  0 <= i < 6 -> Z.testbit (Z.land keyMask 63) i = Z.testbit keyMask i.
Proof.
  intros Hi. change 63 with (Z.ones 6).
  rewrite Z.land_spec, Z.ones_spec_low by lia. apply andb_true_r.
Qed.

Lemma keyMaskStep_land (keyMask : Z) (acc : string * bool) (i : Z) :
  0 <= i < 6 ->
  keyMaskStep (Z.land keyMask 63) acc i = keyMaskStep keyMask acc i.
Proof.
  intros Hi. unfold keyMaskStep.
  by rewrite !land_shiftr_1, testbit_land_63 by lia.
Qed.

(** The string depends on the six low bits of the mask only. *)
Lemma keyMaskToString_land (keyMask : Z) :
  keyMaskToString (Z.land keyMask 63) = keyMaskToString keyMask.
Proof.
  unfold keyMaskToString. cbn [foldl].
  by rewrite !keyMaskStep_land by lia.
Qed.

Lemma in_upto_64 (k : Z) : 0 <= k < 64 -> In k (seqZ 0 64).
Proof. intros Hk. apply list_elem_of_In, elem_of_seqZ. lia. Qed.

Lemma keyMaskToString_inj_small (a b : Z) :
  0 <= a < 64 -> 0 <= b < 64 ->
  keyMaskToString a = keyMaskToString b -> a = b.
Proof.
  intros Ha Hb Heq.
  assert (Hall : forallb (fun x =>
                   forallb (fun y =>
                     implb (bool_decide (keyMaskToString x = keyMaskToString y))
                           (x =? y))
                   (seqZ 0 64)) (seqZ 0 64) = true) by (vm_compute; reflexivity).
  rewrite forallb_forall in Hall. specialize (Hall a (in_upto_64 a Ha)).
  rewrite forallb_forall in Hall. specialize (Hall b (in_upto_64 b Hb)).
  rewrite bool_decide_eq_true_2 in Hall by done. simpl in Hall.
  by apply Z.eqb_eq.
Qed.

(** X12: two masks give the same string exactly when they hold the same keys
    ['a'..'f']: the string tells the key set. *)
Theorem keyMaskToString_inj (keyMask1 keyMask2 : Z) :
  keyMaskToString keyMask1 = keyMaskToString keyMask2
  <-> Z.land keyMask1 63 = Z.land keyMask2 63.
Proof.
  split.
  - intros Heq. apply keyMaskToString_inj_small; try apply land_63_range.
    by rewrite !keyMaskToString_land.
  - intros Heq.
    by rewrite <- (keyMaskToString_land keyMask1), Heq, keyMaskToString_land.
Qed.

Lemma keyMaskToString_letters_small (m i : Z) :
  0 <= m < 64 -> m <> 0 -> 0 <= i < 6 ->
  bool_decide (keyLetter i ∈ drop 6 (String.list_ascii_of_string (keyMaskToString m)))
  = Z.testbit m i.
Proof.
  intros Hm Hnz Hi.
  assert (Hall : forallb (fun x =>
                   forallb (fun j =>
                     (x =? 0)
                     || Bool.eqb
                          (bool_decide
                             (keyLetter j
                              ∈ drop 6 (String.list_ascii_of_string
                                          (keyMaskToString x))))
                          (Z.testbit x j))
                   (seqZ 0 6)) (seqZ 0 64) = true) by (vm_compute; reflexivity).
  rewrite forallb_forall in Hall. specialize (Hall m (in_upto_64 m Hm)).
  rewrite forallb_forall in Hall.
  assert (Hin : In i (seqZ 0 6)) by (apply list_elem_of_In, elem_of_seqZ; lia).
  specialize (Hall i Hin).
  apply orb_true_iff in Hall as [Hz|Hb]; [apply Z.eqb_eq in Hz; done|].
  by apply Bool.eqb_prop.
Qed.

(** X13: without any of the keys ['a'..'f'] the string is "Keys: none"; otherwise
    what follows "Keys: " holds the letter of a key exactly when the mask
    holds the key. *)
Theorem keyMaskToString_lists_keys (keyMask : Z) :
  (Z.land keyMask 63 = 0 <-> keyMaskToString keyMask = "Keys: none"%string)
  /\ (Z.land keyMask 63 <> 0 ->
      forall i, 0 <= i < 6 ->
                (keyLetter i
                 ∈ drop 6 (String.list_ascii_of_string (keyMaskToString keyMask))
                 <-> Z.testbit keyMask i = true)).
Proof.
  split.
  - change "Keys: none"%string with (keyMaskToString 0). split.
    + intros Hz. by rewrite <- (keyMaskToString_land keyMask), Hz.
    + intros Heq. rewrite <- keyMaskToString_land in Heq.
      apply keyMaskToString_inj_small in Heq; [done|apply land_63_range|lia].
  - intros Hnz i Hi.
    rewrite <- (keyMaskToString_land keyMask), <- (testbit_land_63 keyMask i Hi).
    rewrite <- (keyMaskToString_letters_small (Z.land keyMask 63) i);
      [|apply land_63_range|done|done].
    by rewrite bool_decide_eq_true.
Qed.

Lemma keyMaskToString_lists_keys_witness :
  Z.land 5 63 <> 0
  /\ (keyLetter 2 ∈ drop 6 (String.list_ascii_of_string (keyMaskToString 5))
      <-> Z.testbit 5 2 = true).
Proof.
  assert (Hnz : Z.land 5 63 <> 0) by (vm_compute; discriminate).
  split; [exact Hnz|].
  apply (proj2 (keyMaskToString_lists_keys 5) Hnz 2). lia.
Defined.

(** * The engines as a whole *)

(** ** bfsPath *)

Lemma bfsPath_path_ok_witness :
  bfsPath corridor = Some [mkCell 0 0; mkCell 0 1]
  /\ last [mkCell 0 0; mkCell 0 1] = Some (findPosition corridor "E"%char).
Proof.
  assert (Hrun : bfsPath corridor = Some [mkCell 0 0; mkCell 0 1])
    by (vm_compute; reflexivity).
  split; [exact Hrun|].
  assert (Hne : [mkCell 0 0; mkCell 0 1] <> []) by discriminate.
  exact (proj1 (proj2 (bfsPath_path_ok corridor _ Hrun Hne))).
Defined.

Lemma bfsPath_searches (dungeon : Dungeon) (path : list Cell) :
  bfsPath dungeon = Some path -> path <> [] ->
  r (findPosition dungeon "S"%char) <> -1
  /\ r (findPosition dungeon "E"%char) <> -1
  /\ bfsLoop (bfsFuel dungeon) dungeon (findPosition dungeon "S"%char)
             (findPosition dungeon "E"%char)
             (mkBfs [findPosition dungeon "S"%char]
                    {[findPosition dungeon "S"%char]} ∅) = Some path.
Proof.
  unfold bfsPath. cbv zeta. intros Hrun Hne.
  destruct (Z.eqb_spec (r (findPosition dungeon "S"%char)) (-1)) as [|HS];
    simpl in Hrun; [by injection Hrun as <-|].
  destruct (Z.eqb_spec (r (findPosition dungeon "E"%char)) (-1)) as [|HE];
    simpl in Hrun; [by injection Hrun as <-|].
  done.
Qed.

(** X15: the plain search returns on every grid, and no cell of its result holds
    a wall or a door letter other than ['E']. *)
Theorem bfsPath_avoids_walls_and_doors (dungeon : Dungeon) :
  exists path,
    bfsPath dungeon = Some path
    /\ forall v, v ∈ path ->
                 at_ dungeon (r v) (c v) <> "#"%char
                 /\ ~ (isDoorLetter (at_ dungeon (r v) (c v))
                       /\ at_ dungeon (r v) (c v) <> "E"%char).
Proof.
  destruct (bfsPath_returns_route dungeon) as (path & Hrun & Hroute).
  exists path. split; [done|].
  destruct Hroute as [->|Hroute]; [by intros v ?%elem_of_nil|].
  assert (Hne : path <> []) by (destruct Hroute as (Hh & _); by destruct path).
  destruct (bfsPath_searches dungeon path Hrun Hne) as (HS & _ & _).
  destruct (plainRoute_adjacent _ _ _ _ Hroute) as [_ Hpass].
  destruct Hroute as (Hh & _ & _).
  intros v [i Hi]%list_elem_of_lookup. destruct i as [|i].
  - rewrite <- head_lookup, Hh in Hi. injection Hi as <-.
    destruct (findPosition_spec dungeon "S"%char) as [[Hs _]|(_ & _ & Hsym)];
      [by rewrite Hs in HS|].
    apply at_symbolAt in Hsym. rewrite Hsym.
    split; [discriminate|]. intros [Hd _]. unfold isDoorLetter in Hd.
    revert Hd. codes. lia.
  - specialize (Hpass i v Hi). unfold isPassable in Hpass.
    destruct (_ || _); [done|]. cbv zeta in Hpass.
    destruct (Ascii.eqb_spec (at_ dungeon (r v) (c v)) "#"); [done|].
    split; [done|]. intros [Hd HnE]. unfold isDoorLetter in Hd.
    destruct (Ascii.eqb_spec (at_ dungeon (r v) (c v)) "E"); [done|].
    revert Hpass. zcases; try done; lia.
Qed.

(** X16: a non-empty result of the plain search has no more cells than any route
    from the start to the exit. *)
Theorem bfsPath_minimal (dungeon : Dungeon) (path route : list Cell) :
  bfsPath dungeon = Some path -> path <> [] ->
  plainRoute dungeon (findPosition dungeon "S"%char)
             (findPosition dungeon "E"%char) route ->
  (length path <= length route)%nat.
Proof.
  intros Hrun Hne Hroute.
  destruct (bfsPath_searches dungeon path Hrun Hne) as (_ & _ & Hloop).
  by destruct (bfsLoop_shortest _ _ _ _ _ _ _ _ (bfsInv_init _ _)
                 (lvlInv_init _ _ _) Hloop route Hroute).
Qed.

Lemma bfsPath_minimal_witness :
  bfsPath corridor = Some [mkCell 0 0; mkCell 0 1]
  /\ (length [mkCell 0 0; mkCell 0 1] <= length [mkCell 0 0; mkCell 0 1])%nat.
Proof.
  assert (Hrun : bfsPath corridor = Some [mkCell 0 0; mkCell 0 1])
    by (vm_compute; reflexivity).
  split; [exact Hrun|].
  apply (bfsPath_minimal corridor _ _ Hrun); [discriminate|].
  exact corridor_route.
Defined.

(** X17: on a grid with a start and an exit the plain search returns the empty
    sequence exactly when no route leads from the start to the exit. *)
Theorem bfsPath_empty_iff_no_route (dungeon : Dungeon) :
  r (findPosition dungeon "S"%char) <> -1 ->
  r (findPosition dungeon "E"%char) <> -1 ->
  (bfsPath dungeon = Some []
   <-> ~ exists route,
         plainRoute dungeon (findPosition dungeon "S"%char)
                    (findPosition dungeon "E"%char) route).
Proof.
  intros HS HE. split.
  - intros Hrun [route Hroute].
    by destruct (bfsPath_shortest dungeon [] route Hrun HS HE Hroute).
  - intros Hno.
    destruct (bfsPath_returns_route dungeon) as (path & Hrun & [->|Hroute]);
      [done|].
    destruct Hno. by exists path.
Qed.

Lemma bfsPath_empty_iff_no_route_witness :
  r (findPosition blocked "S"%char) <> -1
  /\ r (findPosition blocked "E"%char) <> -1
  /\ (bfsPath blocked = Some []
      <-> ~ exists route,
            plainRoute blocked (findPosition blocked "S"%char)
                       (findPosition blocked "E"%char) route).
Proof.
  assert (HS : r (findPosition blocked "S"%char) <> -1)
    by (vm_compute; discriminate).
  assert (HE : r (findPosition blocked "E"%char) <> -1)
    by (vm_compute; discriminate).
  split; [exact HS|]. split; [exact HE|].
  exact (bfsPath_empty_iff_no_route blocked HS HE).
Defined.

(** *** No cell twice *)

Lemma chain_index_dist dungeon start exit dist D busy st v l :
  lvlInv dungeon start exit dist D busy st ->
  chain (parents st) start v l ->
  forall (i : nat) x, l !! i = Some x -> dist x = i.
Proof.
  intros Hlvl. induction 1 as [|v p l Hv Hp Hc IH]; intros i x Hi.
  - destruct i; [|done]. simpl in Hi. injection Hi as <-.
    apply (lvl_start _ _ _ _ _ _ _ Hlvl).
  - destruct (decide (i < length l)%nat) as [Hlt|Hge].
    + rewrite lookup_app_l in Hi by done. by apply IH.
    + rewrite lookup_app_r in Hi by lia.
      destruct (i - length l)%nat eqn:Hd; [|done].
      simpl in Hi. injection Hi as <-.
      destruct (lvl_parent _ _ _ _ _ _ _ Hlvl v p Hp) as [_ ->].
      pose proof (chain_length_dist _ _ _ _ _ _ _ _ _ Hlvl Hc). lia.
Qed.

Lemma bfsLoop_NoDup dungeon start exit fuel :
  forall st dist D path,
    bfsInv dungeon start st ->
    lvlInv dungeon start exit dist D ∅ st ->
    bfsLoop fuel dungeon start exit st = Some path ->
    NoDup path.
Proof.
  induction fuel as [|fuel IH]; intros st dist D path Hinv Hlvl Hrun; [done|].
  destruct st as [queue V P]. simpl in Hrun.
  destruct queue as [|current rest];
    [injection Hrun as <-; apply NoDup_nil_2|].
  destruct (bfsInv_dequeue _ _ _ _ _ _ Hinv) as [Hinv' Hcur].
  destruct (decide (current = exit)) as [->|Hne].
  - destruct (inv_chain _ _ _ Hinv exit Hcur) as (l & Hc & Hlen). simpl in *.
    unfold reconstructPath in Hrun.
    rewrite (reconstructLoop_chain P start exit l Hc) in Hrun by done.
    simpl in Hrun. rewrite app_nil_r in Hrun. injection Hrun as <-.
    apply NoDup_alt. intros i j x Hi Hj.
    rewrite <- (chain_index_dist _ _ _ _ _ _ _ _ _ Hlvl Hc i x Hi).
    by rewrite <- (chain_index_dist _ _ _ _ _ _ _ _ _ Hlvl Hc j x Hj).
  - pose proof (lvlInv_dequeue _ _ _ _ _ _ _ _ _ Hlvl Hcur Hne) as Hlvl'.
    destruct (foldl_visitNeighbor_inv dungeon start current
                (getNeighbors dungeon current) _ Hinv' Hcur) as [Hinv'' _];
      [done|].
    destruct (foldl_visitNeighbor_lvl dungeon start exit (dist current) current
                (getNeighbors dungeon current) _ dist Hinv' Hcur Hlvl')
      as (dist' & Hlvl'' & _ & Hall); [done|].
    apply lvlInv_finish in Hlvl''; [|done].
    by apply (IH _ dist' (dist current) path Hinv'' Hlvl'' Hrun).
Qed.

(** X18: the plain search returns on every grid a sequence that holds no cell
    twice. *)
Theorem bfsPath_no_cell_twice (dungeon : Dungeon) :
  exists path, bfsPath dungeon = Some path /\ NoDup path.
Proof.
  destruct (bfsPath_returns_route dungeon) as (path & Hrun & _).
  exists path. split; [done|].
  destruct path as [|x path]; [apply NoDup_nil_2|].
  destruct (bfsPath_searches dungeon _ Hrun) as (_ & _ & Hloop); [done|].
  by apply (bfsLoop_NoDup _ _ _ _ _ _ _ _ (bfsInv_init _ _)
              (lvlInv_init _ _ _) Hloop).
Qed.

(** ** bfsPathKeys *)

Lemma kstep_cells (dungeon : Dungeon) (s s' : KeyState) :
  kstep dungeon s s' ->
  adjacent4 (cellOf s) (cellOf s')
  /\ isValidPosition dungeon (row s') (col s') = true.
Proof.
  intros (d & Hd & Hn). apply nextState_inv in Hn as (Hr & Hc & Hv & _).
  split; [|done]. apply directions_spec in Hd. unfold adjacent4, cellOf. simpl.
  rewrite Hr, Hc. destruct Hd as [-> | [-> | [-> | ->]]]; simpl; lia.
Qed.

Lemma linked_fmap {A B : Type} (f : A -> B) (R : A -> A -> Prop)
      (R' : B -> B -> Prop) (l : list A) :
  (forall a b, R a b -> R' (f a) (f b)) -> linked R l -> linked R' (f <$> l).
Proof.
  intros Hf Hl i a b. rewrite !list_lookup_fmap.
  destruct (l !! i) as [x|] eqn:Hx; [|done].
  destruct (l !! S i) as [y|] eqn:Hy; [|done].
  simpl. intros [= <-] [= <-]. apply Hf. by apply (Hl i).
Qed.

Lemma bfsPathKeys_searches (dungeon : Dungeon) (path : list Cell) :
  bfsPathKeys dungeon = Some path -> path <> [] ->
  r (findPosition dungeon "S"%char) <> -1.
Proof.
  unfold bfsPathKeys. cbv zeta. intros Hrun Hne.
  destruct (Z.eqb_spec (r (findPosition dungeon "S"%char)) (-1)) as [|HS];
    simpl in Hrun; [by injection Hrun as <-|done].
Qed.

(** X19: the key-aware search returns on every grid.  A non-empty result starts on
    the located start, ends on the cell (5, 8), moves by one step up, down,
    left or right at a time, and enters cells within bounds that are not
    walls. *)
Theorem bfsPathKeys_result (dungeon : Dungeon) :
  exists path,
    bfsPathKeys dungeon = Some path
    /\ (path = []
        \/ (head path = Some (findPosition dungeon "S"%char)
            /\ last path = Some (mkCell 5 8)
            /\ linked adjacent4 path
            /\ forall (i : nat) v,
                path !! S i = Some v ->
                isValidPosition dungeon (r v) (c v) = true)).
Proof.
  destruct (bfsPathKeys_returns_route dungeon) as (path & Hrun & Hroute).
  exists path. split; [done|].
  destruct Hroute as [->|(states & goal & -> & Hh & Hl & Hlink & Hr & Hc)];
    [by left|].
  right. split; [|split; [|split]].
  - destruct states as [|s states]; [done|]. simpl in *.
    injection Hh as ->. unfold cellOf. simpl.
    by destruct (findPosition dungeon "S"%char).
  - rewrite fmap_last, Hl. simpl. unfold cellOf. by rewrite Hr, Hc.
  - apply (linked_fmap cellOf (kstep dungeon)); [|done].
    intros a b Hk. by apply kstep_cells in Hk as [? _].
  - intros i v. rewrite list_lookup_fmap.
    destruct (states !! S i) as [s|] eqn:Hs; [|done].
    simpl. intros [= <-].
    destruct (lookup_lt_is_Some_2 states i) as [p Hp];
      [apply lookup_lt_Some in Hs; lia|].
    by destruct (kstep_cells dungeon p s (Hlink i p s Hp Hs)) as [_ ?].
Qed.

Lemma keyRoute_last_valid dungeon start path :
  keyRoute dungeon start path ->
  (row start = 5 /\ col start = 8) \/ isValidPosition dungeon 5 8 = true.
Proof.
  intros (states & goal & _ & Hh & Hl & Hlink & Hr & Hc).
  destruct states as [|s states] using rev_ind; [done|].
  rewrite last_snoc in Hl. injection Hl as ->.
  destruct states as [|x states].
  - simpl in Hh. injection Hh as ->. by left.
  - right. apply linked_snoc_inv in Hlink as [_ Hstep].
    destruct (last (x :: states)) as [u|] eqn:Hu; [|by apply last_None in Hu].
    destruct (kstep_cells dungeon u goal (Hstep u eq_refl)) as [_ Hv].
    by rewrite Hr, Hc in Hv.
Qed.

(** X20: unless the start is the cell (5, 8), the key-aware search returns the
    empty sequence on every grid whose cell (5, 8) is out of bounds or a
    wall, wherever the exit is. *)
Theorem bfsPathKeys_needs_cell_5_8 (dungeon : Dungeon) :
  isValidPosition dungeon 5 8 = false ->
  findPosition dungeon "S"%char <> mkCell 5 8 ->
  bfsPathKeys dungeon = Some [].
Proof.
  intros Hv Hs.
  destruct (bfsPathKeys_returns_route dungeon) as (path & Hrun & [->|Hroute]);
    [done|].
  exfalso. apply keyRoute_last_valid in Hroute as [[Hr Hc]|Hv']; [|congruence].
  simpl in Hr, Hc. apply Hs.
  destruct (findPosition dungeon "S"%char). simpl in *. by subst.
Qed.

Lemma bfsPathKeys_needs_cell_5_8_witness :
  isValidPosition keyAndDoor 5 8 = false
  /\ findPosition keyAndDoor "S"%char <> mkCell 5 8
  /\ bfsPathKeys keyAndDoor = Some [].
Proof.
  assert (Hv : isValidPosition keyAndDoor 5 8 = false) by reflexivity.
  assert (Hs : findPosition keyAndDoor "S"%char <> mkCell 5 8)
    by (vm_compute; discriminate).
  split; [exact Hv|]. split; [exact Hs|].
  exact (bfsPathKeys_needs_cell_5_8 keyAndDoor Hv Hs).
Defined.

(** *** Doors are crossed with their keys *)

Lemma testbit_pickUp (symbol : ascii) (keySet b : Z) :
  Z.testbit (pickUp symbol keySet) b = true ->
  Z.testbit keySet b = true \/ (isKeyLetter symbol /\ keyBitOf symbol = b).
Proof.
  unfold pickUp. destruct (_ && _) eqn:Hcond; [|by left].
  assert (Hk : isKeyLetter symbol).
  { unfold isKeyLetter. apply andb_true_iff in Hcond as [H1 H2].
    apply Z.geb_le in H1. apply Z.leb_le in H2. lia. }
  destruct (Z.lt_ge_cases b 0) as [Hneg|Hpos];
    [by rewrite Z.testbit_neg_r|].
  rewrite testbit_collectKey by done.
  intros [H|H%bool_decide_eq_true]%orb_true_iff; [by left|by right].
Qed.

(** Every key of a state reached from a state without keys was picked up on
    a tile of the walk. *)
Lemma keys_come_from_tiles (dungeon : Dungeon) (states : list KeyState)
      (s0 : KeyState) :
  head states = Some s0 -> keyMask s0 = 0 ->
  linked (kstep dungeon) states ->
  forall (i : nat) s b,
    states !! i = Some s -> Z.testbit (keyMask s) b = true ->
    exists (j : nat) t,
      (j <= i)%nat /\ states !! j = Some t
      /\ isKeyLetter (at_ dungeon (row t) (col t))
      /\ keyBitOf (at_ dungeon (row t) (col t)) = b.
Proof.
  intros Hh H0 Hlink. induction i as [|i IH]; intros s b Hs Hb.
  - rewrite <- head_lookup, Hh in Hs. injection Hs as <-.
    by rewrite H0, Z.bits_0 in Hb.
  - destruct (lookup_lt_is_Some_2 states i) as [p Hp];
      [apply lookup_lt_Some in Hs; lia|].
    destruct (Hlink i p s Hp Hs) as (d & _ & Hn).
    apply nextState_inv in Hn as (_ & _ & _ & _ & Hmask).
    rewrite Hmask in Hb.
    apply testbit_pickUp in Hb as [Hb|[Hk Hbit]].
    + destruct (IH p b Hp Hb) as (j & t & Hj & Ht & Hkey).
      exists j, t. split; [lia|done].
    + exists (S i), s. split; [lia|done].
Qed.

(** X21: the key-aware search returns on every grid, and a cell of its result
    that holds a door letter other than ['E'] comes after a cell that holds
    the matching key letter. *)
Theorem bfsPathKeys_doors_need_keys (dungeon : Dungeon) :
  exists path,
    bfsPathKeys dungeon = Some path
    /\ forall (i : nat) v,
        path !! i = Some v ->
        isDoorLetter (at_ dungeon (r v) (c v)) ->
        at_ dungeon (r v) (c v) <> "E"%char ->
        exists (j : nat) k,
          (j < i)%nat /\ path !! j = Some k
          /\ at_ dungeon (r k) (c k) = matchingKey (at_ dungeon (r v) (c v)).
Proof.
  destruct (bfsPathKeys_returns_route dungeon) as (path & Hrun & Hroute).
  exists path. split; [done|].
  destruct Hroute as [->|(states & goal & Hpath & Hh & Hl & Hlink & _)];
    [by intros i v|].
  assert (Hne : path <> []) by (subst; by destruct states).
  pose proof (bfsPathKeys_searches dungeon path Hrun Hne) as HS.
  subst path. intros i v Hv Hdoor HnE.
  rewrite list_lookup_fmap in Hv.
  destruct (states !! i) as [s|] eqn:Hs; [|done].
  simpl in Hv. injection Hv as <-. simpl in *.
  destruct i as [|i].
  - rewrite <- head_lookup, Hh in Hs. injection Hs as <-. simpl in *.
    destruct (findPosition_spec dungeon "S"%char) as [[Hsent _]|(_ & _ & Hsym)];
      [by rewrite Hsent in HS|].
    apply at_symbolAt in Hsym. rewrite Hsym in Hdoor.
    unfold isDoorLetter in Hdoor. revert Hdoor. codes. lia.
  - destruct (lookup_lt_is_Some_2 states i) as [p Hp];
      [apply lookup_lt_Some in Hs; lia|].
    destruct (Hlink i p s Hp Hs) as (d & _ & Hn).
    apply nextState_inv in Hn as (_ & _ & _ & Hblock & _).
    unfold doorBlocks in Hblock.
    assert (Hcond : (code (at_ dungeon (row s) (col s)) >=? code "A"%char)
                    && (code (at_ dungeon (row s) (col s)) <=? code "F"%char)
                    && negb (Ascii.eqb (at_ dungeon (row s) (col s)) "S"%char)
                    && negb (Ascii.eqb (at_ dungeon (row s) (col s)) "E"%char)
                    = true).
    { unfold isDoorLetter in Hdoor.
      destruct (Ascii.eqb_spec (at_ dungeon (row s) (col s)) "S") as [He|_];
        [rewrite He in Hdoor; revert Hdoor; codes; lia|].
      destruct (Ascii.eqb_spec (at_ dungeon (row s) (col s)) "E") as [He|_];
        [done|].
      zcases; try done; lia. }
    rewrite Hcond in Hblock. apply negb_false_iff in Hblock.
    rewrite canPassDoor_testbit in Hblock by done.
    destruct (keys_come_from_tiles dungeon states _ Hh eq_refl Hlink i p _ Hp
                Hblock) as (j & t & Hj & Ht & Hk & Hbit).
    exists j, (cellOf t). split; [lia|].
    split; [by rewrite list_lookup_fmap, Ht|]. simpl.
    apply matchingKey_iff; [done|].
    unfold keyBitOf in Hbit. revert Hbit. codes. lia.
Qed.

(** *** Levels of the key-aware search *)

Lemma klvlInv_init dungeon start exit :
  klvlInv dungeon start exit (fun _ => O) O ∅ (mkKeyBfs [start] {[start]} ∅).
Proof.
  split; simpl; try done.
  - intros v ->%elem_of_singleton. lia.
  - intros v ->%elem_of_singleton Hq. destruct Hq. by left.
Qed.

Lemma klvlInv_dequeue dungeon start exit dist D current rest V P :
  klvlInv dungeon start exit dist D ∅ (mkKeyBfs (current :: rest) V P) ->
  current ∈ V -> goalTest exit current = false ->
  klvlInv dungeon start exit dist (dist current) {[current]} (mkKeyBfs rest V P).
Proof.
  intros [H1 H2 H3 H4 H5 H6 H7] Hcur Hne; simpl in *.
  assert (HD : (D <= dist current)%nat) by (apply H4; by left).
  split; simpl; try done.
  - intros i j qi qj Hij Hi Hj. by apply (H3 (S i) (S j)); [lia| |].
  - intros q [j Hj]%list_elem_of_lookup. by apply (H3 O (S j)); [lia| |].
  - intros v Hv. specialize (H5 v Hv). lia.
  - intros v Hv Hq Hb.
    destruct (H6 v Hv) as (Hd & Hex & Hn); [|done|].
    + intros [->|Hin]%elem_of_cons; [|done]. apply Hb. by apply elem_of_singleton.
    + split; [lia|done].
  - intros v ->%elem_of_singleton. done.
Qed.

Lemma klvlInv_finish dungeon start exit dist D current st :
  klvlInv dungeon start exit dist D {[current]} st ->
  (forall w, kstep dungeon current w -> w ∈ keyVisited st) ->
  klvlInv dungeon start exit dist D ∅ st.
Proof.
  intros [H1 H2 H3 H4 H5 H6 H7] Hall.
  split; try done.
  intros v Hv Hq _. destruct (decide (v = current)) as [->|Hne].
  - destruct (H7 current) as (_ & Hd & Hex); [by apply elem_of_singleton|].
    split; [lia|]. split; [done|].
    intros w Hw. split; [by apply Hall|].
    rewrite Hd. apply H5. by apply Hall.
  - apply H6; [done|done|]. by intros ?%elem_of_singleton.
Qed.

Lemma visitDirection_lvl dungeon start exit dist D current st (d : Z * Z) :
  keyInv dungeon start st ->
  klvlInv dungeon start exit dist D {[current]} st ->
  exists dist',
    klvlInv dungeon start exit dist' D {[current]}
            (visitDirection dungeon current st d)
    /\ (forall w, nextState dungeon current d = Some w ->
                  w ∈ keyVisited (visitDirection dungeon current st d))
    /\ keyVisited st ⊆ keyVisited (visitDirection dungeon current st d).
Proof.
  intros Hinv Hlvl. unfold visitDirection.
  destruct (nextState dungeon current d) as [neighbor|] eqn:Hnext;
    [|exists dist; split; [done|]; split; [done|done]].
  case_bool_decide as Hfresh.
  2: { exists dist. split; [done|]. split; [|done].
       intros w [= <-]. exact Hfresh. }
  destruct Hlvl as [H1 H2 H3 H4 H5 H6 H7].
  destruct (H7 current) as (Hcur & Hd & Hex); [by apply elem_of_singleton|].
  set (dist' := fun x => if decide (x = neighbor) then S D else dist x).
  assert (Hold : forall v, v ∈ keyVisited st -> dist' v = dist v).
  { intros v Hv. unfold dist'. case_decide; [by subst|done]. }
  assert (Hnew : dist' neighbor = S D).
  { unfold dist'. by rewrite decide_True. }
  assert (Hq : forall q, q ∈ keyQueue st -> q ∈ keyVisited st)
    by apply (kinv_queue _ _ _ Hinv).
  exists dist'. split; [|simpl; split; [intros w [= <-]|]; set_solver].
  split; simpl.
  - rewrite Hold; [done|]. apply (kinv_start _ _ _ Hinv).
  - intros v p. destruct (decide (neighbor = v)) as [<-|Hne].
    + rewrite lookup_insert_eq. intros [= <-].
      split; [set_solver|]. by rewrite Hnew, Hold, Hd.
    + rewrite lookup_insert_ne by done. intros Hp.
      destruct (H2 v p Hp) as [Hpv Hdv]. split; [set_solver|].
      rewrite (Hold p) by done.
      unfold dist'. rewrite decide_False by done. done.
  - intros i j qi qj Hij Hi Hj.
    assert (Hqi : qi ∈ keyVisited st \/ qi = neighbor).
    { apply list_elem_of_lookup_2 in Hi.
      apply elem_of_app in Hi as [Hi|Hi%list_elem_of_singleton]; auto. }
    destruct (decide (j < length (keyQueue st))%nat) as [Hlt|Hge].
    + rewrite lookup_app_l in Hi, Hj by lia.
      rewrite !Hold by (apply Hq; by eapply list_elem_of_lookup_2).
      by apply (H3 i j).
    + rewrite lookup_app_r in Hj by lia.
      destruct (j - length (keyQueue st))%nat; [|done].
      simpl in Hj. injection Hj as <-. rewrite Hnew.
      destruct Hqi as [Hqi| ->]; [|by rewrite Hnew].
      rewrite Hold by done. by apply H5.
  - intros q [Hin|Hin%list_elem_of_singleton]%elem_of_app.
    + rewrite Hold by (by apply Hq). by apply H4.
    + subst. rewrite Hnew. lia.
  - intros v [->%elem_of_singleton|Hv]%elem_of_union; [by rewrite Hnew|].
    rewrite Hold by done. by apply H5.
  - intros v Hv Hnq Hb.
    assert (Hvn : v <> neighbor).
    { intros ->. apply Hnq. apply elem_of_app. right. by left. }
    assert (Hv' : v ∈ keyVisited st) by set_solver.
    destruct (H6 v Hv') as (Hdv & Hexv & Hn); [|done|].
    { intros Hin. apply Hnq. apply elem_of_app. by left. }
    rewrite Hold by done. split; [done|]. split; [done|].
    intros w Hw. destruct (Hn w Hw) as [Hwv Hwd].
    split; [set_solver|]. by rewrite Hold.
  - intros v ->%elem_of_singleton. split; [set_solver|].
    by rewrite Hold.
Qed.

Lemma foldl_visitDirection_lvl dungeon start exit D current ds :
  forall st dist,
    keyInv dungeon start st ->
    current ∈ keyVisited st ->
    klvlInv dungeon start exit dist D {[current]} st ->
    (forall d, d ∈ ds -> d ∈ directions) ->
    exists dist',
      klvlInv dungeon start exit dist' D {[current]}
              (foldl (visitDirection dungeon current) st ds)
      /\ keyVisited st ⊆ keyVisited (foldl (visitDirection dungeon current) st ds)
      /\ forall d w, d ∈ ds -> nextState dungeon current d = Some w ->
                     w ∈ keyVisited (foldl (visitDirection dungeon current) st ds).
Proof.
  induction ds as [|d ds IH]; intros st dist Hinv Hcur Hlvl Hds; simpl.
  - exists dist. split; [done|]. split; [done|]. by intros d w Hd%elem_of_nil.
  - assert (Hd : d ∈ directions) by (apply Hds; by left).
    destruct (visitDirection_inv dungeon start current st d Hinv Hcur Hd)
      as (Hinv' & Hcur' & _).
    destruct (visitDirection_lvl dungeon start exit dist D current st d
                Hinv Hlvl) as (dist1 & Hlvl1 & Hn1 & Hsub1).
    destruct (IH _ dist1 Hinv' Hcur' Hlvl1) as (dist2 & Hlvl2 & Hsub2 & Hall2).
    { intros m Hm. apply Hds. by right. }
    exists dist2. split; [done|]. split; [set_solver|].
    intros e w [->|He]%elem_of_cons Hw; [|by eapply Hall2].
    apply Hsub2. by apply Hn1.
Qed.

Lemma kchain_length_dist dungeon start exit dist D busy st v l :
  klvlInv dungeon start exit dist D busy st ->
  chain (keyParents st) start v l -> length l = S (dist v).
Proof.
  intros Hlvl. induction 1 as [|v p l _ Hp _ IH]; simpl.
  - by rewrite (klvl_start _ _ _ _ _ _ _ Hlvl).
  - destruct (klvl_parent _ _ _ _ _ _ _ Hlvl v p Hp) as [_ ->].
    rewrite length_app, IH. simpl. lia.
Qed.

Lemma kroute_levels dungeon start exit dist D st (B : nat) :
  keyInv dungeon start st ->
  klvlInv dungeon start exit dist D ∅ st ->
  (forall q, q ∈ keyQueue st -> (B <= dist q)%nat) ->
  forall route w,
    head route = Some start -> linked (kstep dungeon) route ->
    last route = Some w -> (length route <= S B)%nat ->
    w ∈ keyVisited st /\ (S (dist w) <= length route)%nat.
Proof.
  intros Hinv Hlvl Hlow route.
  induction route as [|w' route' IH] using rev_ind; intros w Hh Hl Hlast Hlen;
    [done|].
  rewrite last_snoc in Hlast. injection Hlast as ->.
  rewrite length_app in *. simpl in *.
  destruct route' as [|x route'].
  - simpl in Hh. injection Hh as ->.
    split; [apply (kinv_start _ _ _ Hinv)|].
    rewrite (klvl_start _ _ _ _ _ _ _ Hlvl). simpl. lia.
  - apply linked_snoc_inv in Hl as [Hl' Hstep].
    destruct (last (x :: route')) as [u|] eqn:Hu;
      [|by apply last_None in Hu].
    destruct (IH u) as [Hvis Hdu]; [done|done|done|simpl in *; lia|].
    simpl in Hdu, Hlen.
    destruct (klvl_done _ _ _ _ _ _ _ Hlvl u Hvis) as (_ & _ & Hn).
    + intros Hq. specialize (Hlow u Hq). lia.
    + set_solver.
    + destruct (Hn w) as [Hw Hdw]; [by apply Hstep|].
      split; [done|]. simpl. lia.
Qed.

Lemma keyLoop_shortest dungeon start exit fuel :
  forall st dist D path,
    keyInv dungeon start st ->
    klvlInv dungeon start exit dist D ∅ st ->
    keyLoop fuel dungeon start exit st = Some path ->
    forall route goal,
      head route = Some start -> linked (kstep dungeon) route ->
      last route = Some goal -> goalTest exit goal = true ->
      path <> [] /\ (length path <= length route)%nat.
Proof.
  induction fuel as [|fuel IH];
    intros st dist D path Hinv Hlvl Hrun route goal Hh Hl Hlast Hgoal; [done|].
  destruct st as [queue V P]. simpl in Hrun.
  destruct queue as [|current rest].
  - exfalso.
    assert (Hlow : forall q, q ∈ keyQueue (mkKeyBfs [] V P) ->
                             (length route <= dist q)%nat)
      by (by intros q ?%elem_of_nil).
    destruct (kroute_levels dungeon start exit dist D _ (length route) Hinv Hlvl
                Hlow route goal Hh Hl Hlast) as [Hvis _]; [lia|].
    destruct (klvl_done _ _ _ _ _ _ _ Hlvl goal Hvis) as (_ & Hex & _);
      [by intros ?%elem_of_nil|set_solver|congruence].
  - destruct (keyInv_dequeue _ _ _ _ _ _ Hinv) as [Hinv' Hcur].
    destruct (goalTest exit current) eqn:Hcurgoal.
    + destruct (kinv_chain _ _ _ Hinv current Hcur) as (l & Hc & Hlen).
      simpl in *. unfold reconstructKeyPath in Hrun.
      rewrite (reconstructKeyLoop_chain P start current l Hc) in Hrun by done.
      simpl in Hrun. rewrite app_nil_r in Hrun. injection Hrun as <-.
      pose proof (kchain_length_dist _ _ _ _ _ _ _ _ _ Hlvl Hc) as Hld.
      split; [by destruct l|]. rewrite length_fmap, Hld.
      destruct (decide (length route <= S (dist current))%nat) as [Hle|Hgt];
        [|lia].
      assert (Hlow : forall q, q ∈ keyQueue (mkKeyBfs (current :: rest) V P) ->
                               (dist current <= dist q)%nat).
      { intros q [j Hj]%list_elem_of_lookup.
        by apply (klvl_sorted _ _ _ _ _ _ _ Hlvl O j current q); [lia| |]. }
      destruct (kroute_levels dungeon start exit dist D _ (dist current) Hinv
                  Hlvl Hlow route goal Hh Hl Hlast Hle) as [Hvis Hd].
      destruct (decide (goal ∈ current :: rest)) as [Hin|Hout].
      * specialize (Hlow goal Hin). lia.
      * destruct (klvl_done _ _ _ _ _ _ _ Hlvl goal Hvis Hout) as (_ & Hex & _);
          [set_solver|congruence].
    + pose proof (klvlInv_dequeue _ _ _ _ _ _ _ _ _ Hlvl Hcur Hcurgoal) as Hlvl'.
      destruct (foldl_visitDirection_inv dungeon start current directions
                  _ Hinv' Hcur) as [Hinv'' _]; [done|].
      destruct (foldl_visitDirection_lvl dungeon start exit (dist current)
                  current directions _ dist Hinv' Hcur Hlvl')
        as (dist' & Hlvl'' & _ & Hall); [done|].
      apply klvlInv_finish in Hlvl''.
      2: { intros w (d & Hd & Hn). by apply (Hall d w). }
      by apply (IH _ dist' (dist current) path Hinv'' Hlvl'' Hrun route goal).
Qed.

(** X22: on a grid with a start and an exit, when the search can walk from the
    start, without keys, to a state on the cell (5, 8), the key-aware search
    returns a non-empty path with no more cells than the walk has states. *)
Theorem bfsPathKeys_shortest_to_5_8 (dungeon : Dungeon) (path : list Cell)
        (states : list KeyState) (goal : KeyState) :
  bfsPathKeys dungeon = Some path ->
  r (findPosition dungeon "S"%char) <> -1 ->
  r (findPosition dungeon "E"%char) <> -1 ->
  head states = Some (mkKeyState (r (findPosition dungeon "S"%char))
                                 (c (findPosition dungeon "S"%char)) 0) ->
  linked (kstep dungeon) states ->
  last states = Some goal -> row goal = 5 -> col goal = 8 ->
  path <> [] /\ (length path <= length states)%nat.
Proof.
  unfold bfsPathKeys. cbv zeta. intros Hrun HS HE Hh Hl Hlast Hr Hc.
  apply Z.eqb_neq in HS, HE. rewrite HS, HE in Hrun. simpl in Hrun.
  eapply keyLoop_shortest;
    [apply keyInv_init|apply klvlInv_init|done|done|done|done|].
  by apply goalTest_literal.
Qed.

Lemma bfsPathKeys_shortest_to_5_8_witness :
  bfsPathKeys lastRow = Some [mkCell 5 6; mkCell 5 7; mkCell 5 8]
  /\ (length [mkCell 5 6; mkCell 5 7; mkCell 5 8]
      <= length [mkKeyState 5 6 0; mkKeyState 5 7 0; mkKeyState 5 8 0])%nat.
Proof.
  assert (Hrun : bfsPathKeys lastRow = Some [mkCell 5 6; mkCell 5 7; mkCell 5 8])
    by (vm_compute; reflexivity).
  split; [exact Hrun|].
  apply (bfsPathKeys_shortest_to_5_8 lastRow _
           [mkKeyState 5 6 0; mkKeyState 5 7 0; mkKeyState 5 8 0]
           (mkKeyState 5 8 0) Hrun).
  - vm_compute. discriminate.
  - vm_compute. discriminate.
  - reflexivity.
  - intros [|[|[|i]]] a b Ha Hb; simpl in *; try discriminate;
      injection Ha as <-; injection Hb as <-;
      (exists (0, 1); split;
       [do 3 apply list_elem_of_further; apply list_elem_of_here|reflexivity]).
  - reflexivity.
  - reflexivity.
  - reflexivity.
Defined.

(** X23: on a grid with a start and an exit the key-aware search returns the
    empty sequence exactly when it cannot walk from the start, without keys,
    to a state on the cell (5, 8). *)
Theorem bfsPathKeys_empty_iff_no_walk (dungeon : Dungeon) :
  r (findPosition dungeon "S"%char) <> -1 ->
  r (findPosition dungeon "E"%char) <> -1 ->
  (bfsPathKeys dungeon = Some []
   <-> ~ exists states goal,
         head states = Some (mkKeyState (r (findPosition dungeon "S"%char))
                                        (c (findPosition dungeon "S"%char)) 0)
         /\ linked (kstep dungeon) states
         /\ last states = Some goal /\ row goal = 5 /\ col goal = 8).
Proof.
  intros HS HE. split.
  - intros Hrun (states & goal & Hh & Hl & Hlast & Hr & Hc).
    assert (Hloop : keyLoop (keyFuel dungeon) dungeon
                      (mkKeyState (r (findPosition dungeon "S"%char))
                                  (c (findPosition dungeon "S"%char)) 0)
                      (findPosition dungeon "E"%char)
                      (mkKeyBfs [mkKeyState (r (findPosition dungeon "S"%char))
                                            (c (findPosition dungeon "S"%char)) 0]
                                {[mkKeyState (r (findPosition dungeon "S"%char))
                                             (c (findPosition dungeon "S"%char)) 0]}
                                ∅) = Some []).
    { revert Hrun. unfold bfsPathKeys. cbv zeta.
      apply Z.eqb_neq in HS, HE. by rewrite HS, HE. }
    assert (Hgoal : goalTest (findPosition dungeon "E"%char) goal = true)
      by (by apply goalTest_literal).
    by destruct (keyLoop_shortest _ _ _ _ _ _ _ _ (keyInv_init _ _ _)
                   (klvlInv_init _ _ _) Hloop states goal Hh Hl Hlast Hgoal).
  - intros Hno.
    destruct (bfsPathKeys_returns_route dungeon)
      as (path & Hrun & [->|(states & goal & _ & Hh & Hl & Hlink & Hr & Hc)]);
      [done|].
    destruct Hno. by exists states, goal.
Qed.

Lemma bfsPathKeys_empty_iff_no_walk_witness :
  r (findPosition corridor "S"%char) <> -1
  /\ r (findPosition corridor "E"%char) <> -1
  /\ (bfsPathKeys corridor = Some []
      <-> ~ exists states goal,
            head states = Some (mkKeyState (r (findPosition corridor "S"%char))
                                           (c (findPosition corridor "S"%char)) 0)
            /\ linked (kstep corridor) states
            /\ last states = Some goal /\ row goal = 5 /\ col goal = 8).
Proof.
  assert (HS : r (findPosition corridor "S"%char) <> -1)
    by (vm_compute; discriminate).
  assert (HE : r (findPosition corridor "E"%char) <> -1)
    by (vm_compute; discriminate).
  split; [exact HS|]. split; [exact HE|].
  exact (bfsPathKeys_empty_iff_no_walk corridor HS HE).
Defined.

(** ** The two engines side by side *)

Lemma step_kstep (dungeon : Dungeon) (p v : Cell) (keySet : Z) :
  step dungeon p v ->
  kstep dungeon (mkKeyState (r p) (c p) keySet)
        (mkKeyState (r v) (c v) (pickUp (at_ dungeon (r v) (c v)) keySet)).
Proof.
  intros (Hp & d & Hd & ->)%getNeighbors_spec. simpl in Hp.
  exists d. split; [done|]. unfold nextState. simpl.
  unfold isPassable in Hp. unfold isValidPosition, doorBlocks.
  destruct (_ || _); [done|]. cbv zeta in Hp.
  destruct (Ascii.eqb (at_ dungeon (r p + d.1) (c p + d.2)) "#"); [done|].
  simpl.
  destruct ((code (at_ dungeon (r p + d.1) (c p + d.2)) >=? code "A"%char)
            && (code (at_ dungeon (r p + d.1) (c p + d.2)) <=? code "F"%char))
    eqn:Hrange; simpl in *.
  - destruct (Ascii.eqb (at_ dungeon (r p + d.1) (c p + d.2)) "E"); [|done].
    simpl. by rewrite andb_false_r.
  - done.
Qed.

Lemma liftFrom_length dungeon keySet cells :
  length (liftFrom dungeon keySet cells) = length cells.
Proof.
  revert keySet. induction cells as [|v rest IH]; intros keySet; simpl; [done|].
  by rewrite IH.
Qed.

Lemma liftFrom_cells dungeon keySet cells :
  cellOf <$> liftFrom dungeon keySet cells = cells.
Proof.
  revert keySet. induction cells as [|v rest IH]; intros keySet; simpl; [done|].
  rewrite IH. f_equal. by destruct v.
Qed.

Lemma linked_cons {K : Type} (R : K -> K -> Prop) (a b : K) (l : list K) :
  linked R (a :: b :: l) <-> R a b /\ linked R (b :: l).
Proof.
  split.
  - intros Hl. split; [by apply (Hl O)|].
    intros i x y Hx Hy. by apply (Hl (S i)).
  - intros [Hab Hl] [|i] x y Hx Hy; simpl in *.
    + by injection Hx as <-; injection Hy as <-.
    + by apply (Hl i).
Qed.

Lemma liftFrom_linked dungeon (p : Cell) (keySet : Z) (cells : list Cell) :
  linked (step dungeon) (p :: cells) ->
  linked (kstep dungeon)
         (mkKeyState (r p) (c p) keySet :: liftFrom dungeon keySet cells).
Proof.
  revert p keySet. induction cells as [|v rest IH]; intros p keySet Hl.
  - intros [|i] x y Hx Hy; done.
  - apply linked_cons in Hl as [Hpv Hl]. simpl. apply linked_cons. split.
    + by apply step_kstep.
    + by apply IH.
Qed.

(** Every route of the plain search is a walk of the key-aware search: the
    same cells, with the keys picked up on the way. *)
Lemma plainRoute_lifts dungeon (start goal : Cell) (route : list Cell) :
  plainRoute dungeon start goal route ->
  exists states last_state,
    head states = Some (mkKeyState (r start) (c start) 0)
    /\ linked (kstep dungeon) states
    /\ last states = Some last_state
    /\ cellOf last_state = goal
    /\ length states = length route.
Proof.
  intros (Hh & Hlast & Hl).
  destruct route as [|p cells]; [done|]. simpl in Hh. injection Hh as ->.
  set (states := mkKeyState (r start) (c start) 0 :: liftFrom dungeon 0 cells).
  assert (Hcells : cellOf <$> states = start :: cells).
  { unfold states. simpl. rewrite liftFrom_cells. f_equal. by destruct start. }
  destruct (last states) as [ls|] eqn:Hls; [|by apply last_None in Hls].
  exists states, ls. split; [done|]. split; [by apply liftFrom_linked|].
  split; [done|]. split.
  - assert (Hl' : last (cellOf <$> states) = Some (cellOf ls))
      by (by rewrite fmap_last, Hls).
    rewrite Hcells, Hlast in Hl'. by injection Hl' as <-.
  - unfold states. simpl. by rewrite liftFrom_length.
Qed.

(** X24: when the located exit is the cell (5, 8), the key-aware search finds a
    path whenever the plain search does, and one that is no longer. *)
Theorem bfsPathKeys_no_longer_than_bfsPath (dungeon : Dungeon)
        (plain : list Cell) :
  findPosition dungeon "E"%char = mkCell 5 8 ->
  bfsPath dungeon = Some plain -> plain <> [] ->
  exists keyed,
    bfsPathKeys dungeon = Some keyed
    /\ keyed <> [] /\ (length keyed <= length plain)%nat.
Proof.
  intros HE Hrun Hne.
  destruct (bfsPath_searches dungeon plain Hrun Hne) as (HS & HE' & _).
  destruct (bfsPath_returns_route dungeon) as (plain' & Hrun' & Hroute).
  rewrite Hrun in Hrun'. injection Hrun' as <-.
  destruct Hroute as [->|Hroute]; [done|].
  destruct (plainRoute_lifts _ _ _ _ Hroute)
    as (states & ls & Hh & Hl & Hlast & Hcell & Hlen).
  destruct (bfsPathKeys_returns_route dungeon) as (keyed & Hkrun & _).
  exists keyed. split; [done|]. rewrite <- Hlen.
  rewrite HE in Hcell. unfold cellOf in Hcell. injection Hcell as Hr Hc.
  revert Hkrun. unfold bfsPathKeys. cbv zeta.
  apply Z.eqb_neq in HS, HE'. rewrite HS, HE'. simpl. intros Hkrun.
  eapply keyLoop_shortest;
    [apply keyInv_init|apply klvlInv_init|exact Hkrun|exact Hh|exact Hl
    |exact Hlast|by apply goalTest_literal].
Qed.

Lemma bfsPathKeys_no_longer_than_bfsPath_witness :
  findPosition shortcut "E"%char = mkCell 5 8
  /\ (length <$> bfsPath shortcut) = Some 11%nat
  /\ exists keyed,
      bfsPathKeys shortcut = Some keyed /\ keyed <> []
      /\ (length keyed <= 11)%nat.
Proof.
  assert (HE : findPosition shortcut "E"%char = mkCell 5 8) by reflexivity.
  split; [exact HE|]. split; [vm_compute; reflexivity|].
  destruct (bfsPath shortcut) as [plain|] eqn:Hrun; [|vm_compute in Hrun; done].
  assert (Hlen : length plain = 11%nat)
    by (vm_compute in Hrun; injection Hrun as <-; reflexivity).
  assert (Hne : plain <> []) by (intros ->; discriminate Hlen).
  rewrite <- Hlen.
  exact (bfsPathKeys_no_longer_than_bfsPath shortcut plain HE Hrun Hne).
Defined.

Lemma get_list_ascii (line : string) (n : nat) (ch : ascii) :
  String.get n line = Some ch -> In ch (String.list_ascii_of_string line).
Proof.
  revert n. induction line as [|x rest IH]; intros n; simpl; [done|].
  destruct n as [|n]; [intros [= <-]; by left|].
  intros Hg. right. by eapply IH.
Qed.

Lemma doorFree_at (dungeon : Dungeon) (rw cl : Z) :
  doorFree dungeon = true ->
  (code (at_ dungeon rw cl) >=? code "A"%char)
  && (code (at_ dungeon rw cl) <=? code "F"%char)
  && negb (Ascii.eqb (at_ dungeon rw cl) "E"%char) = false.
Proof.
  intros Hfree. unfold at_, symbolAt.
  destruct (_ || _); [reflexivity|].
  destruct (dungeon !! Z.to_nat rw) as [line|] eqn:Hline; [|reflexivity].
  destruct (String.get (Z.to_nat cl) line) as [ch|] eqn:Hch; [|reflexivity].
  unfold doorFree in Hfree. rewrite forallb_forall in Hfree.
  assert (Hin : In line dungeon)
    by (apply list_elem_of_In; by eapply list_elem_of_lookup_2).
  specialize (Hfree line Hin). rewrite forallb_forall in Hfree.
  specialize (Hfree ch (get_list_ascii _ _ _ Hch)).
  by apply negb_true_iff in Hfree.
Qed.

(** Without doors, a step of the key-aware search is a step of the plain
    one. *)
Lemma kstep_step (dungeon : Dungeon) (s s' : KeyState) :
  doorFree dungeon = true ->
  kstep dungeon s s' -> step dungeon (cellOf s) (cellOf s').
Proof.
  intros Hfree (d & Hd & Hn).
  apply nextState_inv in Hn as (Hr & Hc & Hv & _).
  apply getNeighbors_spec. simpl. split.
  - unfold isPassable. unfold isValidPosition in Hv.
    destruct (_ || _); [done|]. cbv zeta.
    apply negb_true_iff in Hv. rewrite Hv.
    by rewrite (doorFree_at dungeon (row s') (col s') Hfree).
  - exists d. split; [done|]. unfold cellOf. by rewrite Hr, Hc.
Qed.

Lemma keyRoute_projects dungeon (startCell : Cell) (path : list Cell) :
  doorFree dungeon = true ->
  keyRoute dungeon (mkKeyState (r startCell) (c startCell) 0) path ->
  plainRoute dungeon startCell (mkCell 5 8) path.
Proof.
  intros Hfree (states & goal & -> & Hh & Hl & Hlink & Hr & Hc).
  split; [|split].
  - destruct states as [|s states]; [done|]. simpl in *. injection Hh as ->.
    unfold cellOf. simpl. by destruct startCell.
  - rewrite fmap_last, Hl. simpl. unfold cellOf. by rewrite Hr, Hc.
  - apply (linked_fmap cellOf (kstep dungeon)); [|done].
    intros a b. by apply kstep_step.
Qed.

(** X25: on a grid without doors whose located exit is the cell (5, 8), the two
    engines return paths of the same length. *)
Theorem engines_agree_without_doors (dungeon : Dungeon) :
  doorFree dungeon = true ->
  findPosition dungeon "E"%char = mkCell 5 8 ->
  exists plain keyed,
    bfsPath dungeon = Some plain /\ bfsPathKeys dungeon = Some keyed
    /\ length plain = length keyed.
Proof.
  intros Hfree HE.
  destruct (bfsPath_returns_route dungeon) as (plain & Hrun & Hroute).
  destruct (bfsPathKeys_returns_route dungeon) as (keyed & Hkrun & Hkroute).
  exists plain, keyed. split; [done|]. split; [done|].
  destruct (decide (r (findPosition dungeon "S"%char) = -1)) as [HS|HS].
  { revert Hrun Hkrun. unfold bfsPath, bfsPathKeys. cbv zeta.
    rewrite HS. simpl. by intros [= <-] [= <-]. }
  assert (HE' : r (findPosition dungeon "E"%char) <> -1) by (by rewrite HE).
  assert (Hloop : keyLoop (keyFuel dungeon) dungeon
                    (mkKeyState (r (findPosition dungeon "S"%char))
                                (c (findPosition dungeon "S"%char)) 0)
                    (findPosition dungeon "E"%char)
                    (mkKeyBfs [mkKeyState (r (findPosition dungeon "S"%char))
                                          (c (findPosition dungeon "S"%char)) 0]
                              {[mkKeyState (r (findPosition dungeon "S"%char))
                                           (c (findPosition dungeon "S"%char)) 0]}
                              ∅) = Some keyed).
  { revert Hkrun. unfold bfsPathKeys. cbv zeta.
    pose proof HS as HS'. pose proof HE' as HE''.
    apply Z.eqb_neq in HS', HE''. by rewrite HS', HE''. }
  assert (Hup : forall route,
             plainRoute dungeon (findPosition dungeon "S"%char)
                        (findPosition dungeon "E"%char) route ->
             keyed <> [] /\ (length keyed <= length route)%nat).
  { intros route Hr.
    destruct (plainRoute_lifts _ _ _ _ Hr)
      as (states & ls & Hh & Hl & Hlast & Hcell & Hlen).
    rewrite <- Hlen. rewrite HE in Hcell. unfold cellOf in Hcell.
    injection Hcell as Hr5 Hc8.
    eapply keyLoop_shortest;
      [apply keyInv_init|apply klvlInv_init|exact Hloop|exact Hh|exact Hl
      |exact Hlast|by apply goalTest_literal]. }
  assert (Hdown : keyed <> [] ->
                  plain <> [] /\ (length plain <= length keyed)%nat).
  { intros Hne. destruct Hkroute as [->|Hkroute]; [done|].
    apply keyRoute_projects in Hkroute; [|done]. rewrite <- HE in Hkroute.
    exact (bfsPath_shortest dungeon plain keyed Hrun HS HE' Hkroute). }
  destruct Hroute as [->|Hroute].
  - destruct keyed as [|k keyed]; [done|].
    by destruct Hdown as [? _].
  - destruct (Hup plain Hroute) as [Hne Hle].
    destruct (Hdown Hne) as [_ Hge]. lia.
Qed.

Lemma engines_agree_without_doors_witness :
  doorFree openHall = true
  /\ findPosition openHall "E"%char = mkCell 5 8
  /\ exists plain keyed,
      bfsPath openHall = Some plain /\ bfsPathKeys openHall = Some keyed
      /\ length plain = length keyed.
Proof.
  assert (Hfree : doorFree openHall = true) by reflexivity.
  assert (HE : findPosition openHall "E"%char = mkCell 5 8) by reflexivity.
  split; [exact Hfree|]. split; [exact HE|].
  exact (engines_agree_without_doors openHall Hfree HE).
Defined.
